(** * Orange.preprocess.fss: feature subset selection

    A shallow embedding of [SelectBestFeatures.__call__] and
    [RemoveNaNColumns.__call__] from [Orange/preprocess/fss.py], together
    with the properties of the two transformations.

    Conventions of the embedding:
    - a float (a score, a cell of the numeric array [X]) is either a number,
      a rational, or [NaN]; every comparison with [NaN] is false;
    - thresholds are numbers ([Q]), [k] is an integer;
    - a raised exception is the left injection of the result. *)

From Stdlib Require Import QArith.
From stdpp Require Import base list strings sorting.

Local Open Scope string_scope.
Local Open Scope list_scope.
Local Open Scope nat_scope.

(** ** Floats *)

Inductive float : Type :=
  | NaN : float
  | Num : Q → float.

Definition isnan (v : float) : bool :=
  match v with
  | NaN => true
  | Num _ => false
  end.

(** [a < b], [a <= b] and [a == b] on floats: false as soon as one side is
    [NaN]. *)
Definition float_lt (a b : float) : bool :=
  match a, b with
  | Num x, Num y => negb (Qle_bool y x)
  | _, _ => false
  end.

Definition float_le (a b : float) : bool :=
  match a, b with
  | Num x, Num y => Qle_bool x y
  | _, _ => false
  end.

Definition float_eqb (a b : float) : bool :=
  match a, b with
  | Num x, Num y => Qeq_bool x y
  | _, _ => false
  end.

(** [-a] *)
Definition float_opp (a : float) : float :=
  match a with
  | Num x => Num (- x)
  | NaN => NaN
  end.

(** ** Python built-ins used by the module *)

Section builtins.
Context {A : Type}.

(** [itertools.takewhile(pred, it)]: the elements up to, and not including,
    the first one on which [pred] is false. *)
Fixpoint takewhile (pred : A → bool) (it : list A) : list A :=
  match it with
  | [] => []
  | x :: it' => if pred x then x :: takewhile pred it' else []
  end.

(** [l[:k]] for an integer [k]: the first [k] elements when [k >= 0], all
    but the last [-k] elements when [k < 0]. *)
Definition slice_to (k : Z) (l : list A) : list A :=
  if (0 <=? k)%Z then take (Z.to_nat k) l
  else take (length l - Z.to_nat (- k)) l.

(** [list.sort], as CPython runs it on a list of fewer than 64 elements:
    the run at the head of the list is measured ([count_run]: the longest
    non-descending prefix, or the longest strictly descending one, which is
    then reversed), and the remaining elements are inserted into it one by
    one, each at the position found by binary search ([binarysort]).  The
    only comparison made is [lt x y], the test [x < y].  Longer lists are cut
    into such runs, which are merged; the result is the same whenever [lt]
    is a strict order that compares every two elements, as the facts below
    show for keys without [NaN]. *)
Context (lt : A → A → bool).

Fixpoint run_ascending (prev : A) (l : list A) : nat :=
  match l with
  | [] => 0
  | x :: l' => if lt x prev then 0 else S (run_ascending x l')
  end.

Fixpoint run_descending (prev : A) (l : list A) : nat :=
  match l with
  | [] => 0
  | x :: l' => if lt x prev then S (run_descending x l') else 0
  end.

(** The length of the run at the head of [l], and whether it descends. *)
Definition count_run (l : list A) : nat * bool :=
  match l with
  | [] => (0, false)
  | [x] => (1, false)
  | x :: y :: l' =>
      if lt y x then (2 + run_descending y l', true)
      else (2 + run_ascending y l', false)
  end.

(** The binary search of [binarysort]: the position of [pivot] in [run],
    sought between [l] and [r]. *)
Fixpoint bisect (fuel : nat) (pivot : A) (run : list A) (l r : nat) : nat :=
  match fuel with
  | 0 => l
  | S fuel' =>
      if bool_decide (l < r) then
        let p := l + Nat.div2 (r - l) in
        match run !! p with
        | Some e =>
            if lt pivot e then bisect fuel' pivot run l p
            else bisect fuel' pivot run (S p) r
        | None => l
        end
      else l
  end.

Definition insert_pivot (run : list A) (pivot : A) : list A :=
  let i := bisect (length run) pivot run 0 (length run) in
  take i run ++ pivot :: drop i run.

Definition binarysort (run rest : list A) : list A :=
  foldl insert_pivot run rest.

Definition list_sort (l : list A) : list A :=
  let '(n, descending) := count_run l in
  binarysort (if descending then reverse (take n l) else take n l)
             (drop n l).
End builtins.

(** [sorted(l, key=key, reverse=reverse)]: the keys are compared with [<];
    with [reverse=True] the list is reversed, sorted, and reversed again,
    which keeps the sort stable. *)
Definition sorted {A : Type} (key : A → float) (reverse_ : bool)
    (l : list A) : list A :=
  let s := list_sort (λ x y, float_lt (key x) (key y))
                     (if reverse_ then reverse l else l) in
  if reverse_ then reverse s else s.

(** ** The stable sort, as a specification *)

(** What the documentation promises of [sorted] when every two keys compare:
    a stable sort, which with [reverse=True] sorts as if each comparison
    were reversed and still keeps elements with equal keys in their
    original order.  It is written as an insertion sort on numeric keys: [x]
    is placed in front of the first element that it may precede. *)
Section stable_sort.
Context {A : Type} (key : A → Q).

Definition precedes (reverse : bool) (x y : A) : bool :=
  if reverse then Qle_bool (key y) (key x) else Qle_bool (key x) (key y).

Fixpoint insert_sorted (reverse : bool) (x : A) (l : list A) : list A :=
  match l with
  | [] => [x]
  | y :: l' =>
      if precedes reverse x y then x :: y :: l'
      else y :: insert_sorted reverse x l'
  end.

Fixpoint stable_sort (reverse : bool) (l : list A) : list A :=
  match l with
  | [] => []
  | x :: l' => insert_sorted reverse x (stable_sort reverse l')
  end.
End stable_sort.

(** The number held by a float that is not [NaN]. *)
Definition num (v : float) : Q :=
  match v with
  | Num q => q
  | NaN => 0
  end.

(** Truth value of a number, as tested by [if self.k:] and
    [if self.threshold:] once the value is known not to be [None]: zero is
    false, every other number is true. *)
Definition truthy_int (n : Z) : bool := negb (n =? 0)%Z.

Definition truthy_num (t : Q) : bool := negb (Qeq_bool t 0).

(** ** NumPy arrays *)

(** A two-dimensional array: the number of columns (its [shape[1]]) is kept
    apart from the rows, since an array without rows still has columns. *)
Record ndarray : Type := mk_ndarray {
  ncols : nat;
  rows : list (list float)
}.

Definition well_shaped (a : ndarray) : Prop :=
  Forall (λ r, length r = ncols a) (rows a).

(** [np.isnan(a)], element by element. *)
Definition np_isnan (a : ndarray) : list (list bool) :=
  (λ r : list float, isnan <$> r) <$> rows a.

(** [np.all(b, axis=0)]: the conjunction down each column, starting from
    [True] for every column. *)
Definition np_all_axis0 (n : nat) (b : list (list bool)) : list bool :=
  foldr (zip_with andb) (replicate n true) b.

(** ** Domains, tables, scoring methods *)

(** The classes of variables are not part of this module.  They are taken as
    an interface: a type of classes with decidable equality, the subclass
    test behind [isinstance], and the printed form of a class. *)
Class Kinds : Type := {
  Kind : Type;
  Kind_eq_dec :: EqDecision Kind;
  issubclass : Kind → Kind → bool;
  kind_repr : Kind → string
}.

Section model.
Context `{Kinds}.

(** A variable (column descriptor): its name and its class. *)
Record Var : Type := mk_Var {
  name : string;
  var_type : Kind
}.

#[global] Instance Var_eq_dec : EqDecision Var.
Proof. solve_decision. Defined.

Record Domain : Type := mk_Domain {
  attributes : list Var;
  class_vars : list Var;
  metas : list Var
}.

Record Table : Type := mk_Table {
  domain : Domain;
  X : ndarray;
  Y : list (list float);
  meta_values : list (list string)
}.

(** [isinstance(v, T)] for a variable, and for [domain.class_var], which may
    be [None]; [None] is an instance of no class of variables. *)
Definition isinstance (v : Var) (T : Kind) : bool :=
  issubclass (var_type v) T.

Definition isinstance_opt (v : option Var) (T : Kind) : bool :=
  match v with
  | Some v => isinstance v T
  | None => false
  end.

(** Modelled from the spec: [Table.from_table(domain, data)] and
    [Table(domain, data)], which are not part of this module.  The result is
    a table over the given domain holding the corresponding column
    projection of the rows of [data]; a column that [data] does not have is
    unknown. *)
Definition column_of (d : Domain) (v : Var) : option nat :=
  fst <$> list_find (λ a, a = v) (attributes d).

Definition project_row (d d' : Domain) (r : list float) : list float :=
  (λ v, default NaN (column_of d v ≫= λ j, r !! j)) <$> attributes d'.

Definition from_table (d' : Domain) (data : Table) : Table :=
  {| domain := d';
     X := {| ncols := length (attributes d');
             rows := project_row (domain data) d' <$> rows (X data) |};
     Y := Y data;
     meta_values := meta_values data |}.

(** A scoring method: the printed form of its type, the class it requires
    of the class variable, the class of the features it can score, and the
    score it gives a feature on a table. *)
Record ScoringMethod : Type := mk_ScoringMethod {
  method_type : string;
  class_type : Kind;
  feature_type : Kind;
  score : Var → Table → float
}.
End model.

(** The [class_var] accessor of a domain (the single class variable, or
    [None]) belongs to the domain class, which is not part of this module. *)
Class ClassVar `{Kinds} : Type :=
  class_var : Domain → option Var.

(** ** SelectBestFeatures *)

Section select.
Context `{ClassVar}.

Record SelectBestFeatures : Type := mk_SelectBestFeatures {
  method : ScoringMethod;
  k : option Z;
  threshold : option Q;
  decreasing : bool
}.

Inductive Exception : Type :=
  | ValueError (msg : string).

Context (self : SelectBestFeatures) (data : Table).

Definition error_message : string :=
  "Scoring method " ++ method_type (method self)
    ++ " requires a class variable " ++ "of type "
    ++ kind_repr (class_type (method self)) ++ ".".

Definition features : list Var :=
  filter (λ f, isinstance f (feature_type (method self)))
         (attributes (domain data)).

Definition other : list Var :=
  filter (λ f, negb (isinstance f (feature_type (method self))))
         (attributes (domain data)).

Definition scores : list float :=
  (λ f, score (method self) f data) <$> features.

(** [sorted(zip(scores, features), key=itemgetter(0), reverse=...)] *)
Definition best_sorted : list (float * Var) :=
  sorted fst (decreasing self) (zip scores features).

(** [if self.k: best = best[:self.k]] *)
Definition best_k : list (float * Var) :=
  match k self with
  | Some n => if truthy_int n then slice_to n best_sorted else best_sorted
  | None => best_sorted
  end.

(** The test given to [takewhile]: [x[0] >= self.threshold] or
    [x[0] <= self.threshold]. *)
Definition pred (t : Q) (x : float * Var) : bool :=
  if decreasing self then float_le (Num t) (fst x)
  else float_le (fst x) (Num t).

(** [if self.threshold: best = takewhile(pred, best)] *)
Definition best : list (float * Var) :=
  match threshold self with
  | Some t => if truthy_num t then takewhile (pred t) best_k else best_k
  | None => best_k
  end.

Definition selected_domain : Domain :=
  {| attributes := best.*2 ++ other;
     class_vars := class_vars (domain data);
     metas := metas (domain data) |}.

Definition SelectBestFeatures_call : Exception + Table :=
  if negb (isinstance_opt (class_var (domain data))
                          (class_type (method self)))
  then inl (ValueError error_message)
  else inr (from_table selected_domain data).
End select.

(** ** RemoveNaNColumns *)

Section remove.
Context `{Kinds} (data : Table).

Definition nan_col : list bool :=
  np_all_axis0 (ncols (X data)) (np_isnan (X data)).

Definition att : list Var :=
  (filter (λ p : Var * bool, negb (snd p))
          (zip (attributes (domain data)) nan_col)).*1.

Definition removed_domain : Domain :=
  {| attributes := att;
     class_vars := class_vars (domain data);
     metas := metas (domain data) |}.

Definition RemoveNaNColumns_call : Table :=
  from_table removed_domain data.
End remove.

(** ** Vocabulary of the properties *)

(** [s] occurs in the message [msg]. *)
Definition includes (s msg : string) : Prop :=
  ∃ pre post : string, msg = (pre ++ s ++ post)%string.

(** A score meets the threshold [t]: at least [t] when scores decrease in
    importance order, at most [t] otherwise. *)
Definition meets (decreasing : bool) (t s : Q) : Prop :=
  if decreasing then (t <= s)%Q else (s <= t)%Q.

(** A score, a float, meets the threshold [t]; [NaN] meets none. *)
Definition score_meets (decreasing : bool) (t : Q) (v : float) : Prop :=
  match v with
  | Num s => meets decreasing t s
  | NaN => False
  end.

(** [x] may stand before [y] in the importance order: both scores are
    numbers, and that of [x] is at least that of [y] when [decreasing], at
    most that of [y] otherwise. *)
Definition ranks_before {B : Type} (decreasing : bool) (x y : float * B)
    : Prop :=
  match x.1, y.1 with
  | Num a, Num b => if decreasing then (b <= a)%Q else (a <= b)%Q
  | _, _ => False
  end.

(** Every row holds a missing value (NaN) in column [j]. *)
Definition column_all_nan (rs : list (list float)) (j : nat) : Prop :=
  Forall (λ r, isnan <$> r !! j = Some true) rs.

#[global] Instance column_all_nan_dec rs j : Decision (column_all_nan rs j).
Proof. unfold column_all_nan. apply _. Defined.

Section vocabulary.
Context `{Kinds}.

Definition all_missing (data : Table) (j : nat) : Prop :=
  column_all_nan (rows (X data)) j.

(** The array [X] of a table has one column per attribute. *)
Definition well_formed (data : Table) : Prop :=
  well_shaped (X data) ∧ ncols (X data) = length (attributes (domain data)).

(** The method gives every scorable attribute of the table a number: no
    score is [NaN]. *)
Definition no_nan_score (m : ScoringMethod) (data : Table) : Prop :=
  ∀ f, f ∈ attributes (domain data) →
       isinstance f (feature_type m) = true → score m f data ≠ NaN.
End vocabulary.

(** ** Configurations compared in the properties *)

Section configurations.
Context `{Kinds}.

(** [if self.k:] is false: [k] is unset or zero. *)
Definition k_off (self : SelectBestFeatures) : Prop :=
  k self = None ∨ k self = Some 0%Z.

(** [if self.threshold:] is false: [threshold] is unset or zero. *)
Definition threshold_off (self : SelectBestFeatures) : Prop :=
  threshold self = None ∨ ∃ t, threshold self = Some t ∧ (t == 0)%Q.

(** [SelectBestFeatures(method)]: the constructor with its defaults,
    [k=None], [threshold=None], [decreasing=True]. *)
Definition SelectBestFeatures_init (m : ScoringMethod) : SelectBestFeatures :=
  {| method := m; k := None; threshold := None; decreasing := true |}.

(** A scored pair with the opposite score. *)
Definition opposite {B : Type} (x : float * B) : float * B :=
  (float_opp x.1, x.2).

(** The method that gives every feature the opposite score. *)
Definition negated (m : ScoringMethod) : ScoringMethod :=
  {| method_type := method_type m;
     class_type := class_type m;
     feature_type := feature_type m;
     score := λ f d, float_opp (score m f d) |}.

(** The configuration read in the opposite direction: opposite scores,
    opposite threshold, opposite order. *)
Definition mirrored (self : SelectBestFeatures) : SelectBestFeatures :=
  {| method := negated (method self);
     k := k self;
     threshold := Qopp <$> threshold self;
     decreasing := negb (decreasing self) |}.
End configurations.

(** ** A small universe of variables, for the examples *)

Module Example.

Inductive VarKind : Type :=
  | DiscreteVariable
  | ContinuousVariable.

#[global] Instance VarKind_eq_dec : EqDecision VarKind.
Proof. solve_decision. Defined.

(** Two unrelated classes: a class is a subclass of itself only. *)
#[global] Instance kinds : Kinds := {|
  Kind := VarKind;
  issubclass := λ c T, bool_decide (c = T);
  kind_repr := λ c,
    match c with
    | DiscreteVariable => "DiscreteVariable"
    | ContinuousVariable => "ContinuousVariable"
    end
|}.

(** The class variable of a domain with exactly one class variable. *)
#[global] Instance single_class_var : ClassVar := λ d,
  match class_vars d with
  | [c] => Some c
  | _ => None
  end.

Definition A : Var := mk_Var "A" ContinuousVariable.
Definition B : Var := mk_Var "B" ContinuousVariable.
Definition C : Var := mk_Var "C" DiscreteVariable.
Definition cls : Var := mk_Var "class" DiscreteVariable.
Definition note : Var := mk_Var "note" DiscreteVariable.

Definition values (l : list (list Q)) : list (list float) :=
  (λ r : list Q, Num <$> r) <$> l.

(** Three attributes, two rows, a discrete class and one meta column. *)
Definition table : Table :=
  {| domain := {| attributes := [A; B; C];
                  class_vars := [cls];
                  metas := [note] |};
     X := {| ncols := 3; rows := values [[1; 2; 0]; [3; 4; 1]]%Q |};
     Y := values [[0]; [1]]%Q;
     meta_values := [["x"]; ["y"]] |}.

(** The same table without a class variable. *)
Definition table_no_class : Table :=
  {| domain := {| attributes := [A; B; C]; class_vars := []; metas := [] |};
     X := X table;
     Y := [[]; []];
     meta_values := [[]; []] |}.

(** A method for continuous features and a discrete class; it gives [A] the
    score [a], [B] the score [b] and every other variable the score [c]. *)
Definition scorer (a b c : Q) : ScoringMethod :=
  {| method_type := "<class 'Scorer'>";
     class_type := DiscreteVariable;
     feature_type := ContinuousVariable;
     score := λ f _,
       if String.eqb (name f) "A" then Num a
       else if String.eqb (name f) "B" then Num b
       else Num c |}.

(** Scores 0.9 for [A], 0.5 for [B] and 0.2 for [C]. *)
Definition top1 : SelectBestFeatures :=
  {| method := scorer (9 # 10) (5 # 10) (2 # 10);
     k := Some 1%Z; threshold := None; decreasing := true |}.

Definition above_06 : SelectBestFeatures :=
  {| method := scorer (9 # 10) (5 # 10) (2 # 10);
     k := None; threshold := Some (6 # 10); decreasing := true |}.

Definition top2_above_06 : SelectBestFeatures :=
  {| method := scorer (9 # 10) (5 # 10) (2 # 10);
     k := Some 2%Z; threshold := Some (6 # 10); decreasing := true |}.

(** Scores 1/2 for [A] and -1/2 for [B], with the threshold 0. *)
Definition zero_threshold (n : option Z) : SelectBestFeatures :=
  {| method := scorer (1 # 2) (- 1 # 2) 0;
     k := n; threshold := Some 0%Q; decreasing := true |}.

Definition zero_k : SelectBestFeatures :=
  {| method := scorer (1 # 2) (- 1 # 2) 0;
     k := Some 0%Z; threshold := None; decreasing := true |}.

(** A method that needs a continuous class. *)
Definition regression_scorer : ScoringMethod :=
  {| method_type := "<class 'RegressionScorer'>";
     class_type := ContinuousVariable;
     feature_type := ContinuousVariable;
     score := λ _ _, Num 0 |}.

Definition regression_top1 : SelectBestFeatures :=
  {| method := regression_scorer;
     k := Some 1%Z; threshold := None; decreasing := true |}.

(** Column [X1] is entirely missing, column [X2] holds one value. *)
Definition X1 : Var := mk_Var "X" ContinuousVariable.
Definition X2 : Var := mk_Var "Y" ContinuousVariable.

Definition table_nan : Table :=
  {| domain := {| attributes := [X1; X2];
                  class_vars := [cls];
                  metas := [note] |};
     X := {| ncols := 2; rows := [[NaN; Num 3]; [NaN; NaN]] |};
     Y := [[NaN]; [NaN]];
     meta_values := [["x"]; ["y"]] |}.

(** Further configurations and tables. *)
Definition top2 : SelectBestFeatures :=
  {| method := scorer (9 # 10) (5 # 10) (2 # 10);
     k := Some 2%Z; threshold := None; decreasing := true |}.

Definition above_04 : SelectBestFeatures :=
  {| method := scorer (9 # 10) (5 # 10) (2 # 10);
     k := None; threshold := Some (4 # 10); decreasing := true |}.

Definition all_but_last : SelectBestFeatures :=
  {| method := scorer (9 # 10) (5 # 10) (2 # 10);
     k := Some (-1)%Z; threshold := None; decreasing := true |}.

(** A method that scores discrete features only. *)
Definition discrete_scorer : ScoringMethod :=
  {| method_type := "<class 'DiscreteScorer'>";
     class_type := DiscreteVariable;
     feature_type := DiscreteVariable;
     score := λ _ _, Num 1 |}.

Definition discrete_top1 : SelectBestFeatures :=
  {| method := discrete_scorer;
     k := Some 1%Z; threshold := None; decreasing := true |}.

(** Two continuous attributes. *)
Definition table_ab : Table :=
  {| domain := {| attributes := [A; B]; class_vars := [cls]; metas := [] |};
     X := {| ncols := 2; rows := values [[1; 2]; [3; 4]]%Q |};
     Y := values [[0]; [1]]%Q;
     meta_values := [[]; []] |}.

(** A table without rows. *)
Definition table_no_rows : Table :=
  {| domain := {| attributes := [A; B]; class_vars := [cls]; metas := [] |};
     X := {| ncols := 2; rows := [] |};
     Y := [];
     meta_values := [] |}.

(** Tables all of whose attributes are continuous, with scores given by
    name; a name that is not listed scores [NaN]. *)
Definition scorer_of (l : list (string * float)) : ScoringMethod :=
  {| method_type := "<class 'Scorer'>";
     class_type := DiscreteVariable;
     feature_type := ContinuousVariable;
     score := λ f _,
       match list_find (λ p : string * float, String.eqb p.1 (name f)) l with
       | Some (_, (_, v)) => v
       | None => NaN
       end |}.

Definition continuous (names : list string) : Table :=
  {| domain := {| attributes := (λ s, mk_Var s ContinuousVariable) <$> names;
                  class_vars := [cls];
                  metas := [] |};
     X := {| ncols := length names; rows := [] |};
     Y := [];
     meta_values := [] |}.

(** Seven attributes with the scores nan, nan, 4, nan, 1, 0.5, 1, sorted by
    increasing score: [T5] and [T7] both score 1. *)
Definition T5 : Var := mk_Var "T5" ContinuousVariable.
Definition T7 : Var := mk_Var "T7" ContinuousVariable.

Definition table_seven : Table :=
  continuous ["T1"; "T2"; "T3"; "T4"; "T5"; "T6"; "T7"].

Definition increasing_with_nan : SelectBestFeatures :=
  {| method := scorer_of [("T3", Num 4); ("T5", Num 1); ("T6", Num (1 # 2));
                          ("T7", Num 1)];
     k := None; threshold := None; decreasing := false |}.

(** Three attributes with the scores 0.1, nan, 0.9, and [k = 1]. *)
Definition U1 : Var := mk_Var "U1" ContinuousVariable.
Definition U2 : Var := mk_Var "U2" ContinuousVariable.
Definition U3 : Var := mk_Var "U3" ContinuousVariable.

Definition table_three : Table := continuous ["U1"; "U2"; "U3"].

Definition top1_with_nan : SelectBestFeatures :=
  {| method := scorer_of [("U1", Num (1 # 10)); ("U3", Num (9 # 10))];
     k := Some 1%Z; threshold := None; decreasing := true |}.

(** Equal scores for [A] and [B], sorted either way. *)
Definition tied (d : bool) : SelectBestFeatures :=
  {| method := scorer (5 # 10) (5 # 10) (2 # 10);
     k := None; threshold := None; decreasing := d |}.

End Example.

(** * Properties *)

(** ** The built-ins *)

Section takewhile_facts.
Context {A : Type} (pred : A → bool).

Lemma takewhile_split (l : list A) :
  ∃ rest, l = takewhile pred l ++ rest ∧
          (rest = [] ∨ ∃ x rest', rest = x :: rest' ∧ pred x = false).
Proof.
  induction l as [|x l [rest [Hl Hrest]]]; simpl.
  - exists []. by split; [|left].
  - destruct (pred x) eqn:Hx.
    + exists rest. split; [simpl; by f_equal | done].
    + exists (x :: l). split; [done|]. right. by exists x, l.
Qed.

Lemma takewhile_prefix (l : list A) : takewhile pred l `prefix_of` l.
Proof. destruct (takewhile_split l) as (rest & Hl & _). by exists rest. Qed.

Lemma takewhile_Forall (l : list A) : Forall (λ x, pred x = true) (takewhile pred l).
Proof.
  induction l as [|x l IH]; simpl; [constructor|].
  destruct (pred x) eqn:Hx; by constructor.
Qed.

Lemma takewhile_maximal (l p : list A) :
  p `prefix_of` l → Forall (λ x, pred x = true) p →
  p `prefix_of` takewhile pred l.
Proof.
  revert p. induction l as [|x l IH]; intros p Hp Hall.
  - apply prefix_nil_inv in Hp as ->. apply prefix_nil.
  - destruct p as [|y p]; [apply prefix_nil|].
    pose proof (prefix_cons_inv_1 _ _ _ _ Hp) as ->.
    apply prefix_cons_inv_2 in Hp.
    inversion Hall as [|? ? Hy Hall']; subst. simpl. rewrite Hy.
    apply prefix_cons. by apply IH.
Qed.

(** On a ranked list the prefix cut keeps the same elements as a filter,
    when the test, once failed, fails for everything ranked later. *)
Lemma takewhile_ranked_filter (R : A → A → Prop) (G : A → Prop) (l : list A) :
  (∀ x y, G x → G y → R x y → pred y = true → pred x = true) →
  Forall G l → StronglySorted R l →
  takewhile pred l = filter (λ x, pred x) l.
Proof.
  intros Hmono HG. induction 1 as [|x l _ IH Hx]; [done|]. simpl.
  apply Forall_cons in HG as [Hgx HG].
  rewrite filter_cons. destruct (pred x) eqn:Hpx; simpl.
  - destruct (decide (Is_true true)) as [_|[]]; [by rewrite IH|done].
  - destruct (decide (Is_true false)) as [[]|_].
    clear IH. induction Hx as [|y l Hy _ IH]; [done|].
    apply Forall_cons in HG as [Hgy HG].
    rewrite filter_cons. destruct (pred y) eqn:Hpy; simpl.
    + rewrite (Hmono x y Hgx Hgy Hy Hpy) in Hpx. done.
    + destruct (decide (Is_true false)) as [[]|_]. by apply IH.
Qed.
End takewhile_facts.

Section slice_facts.
Context {A : Type}.

Lemma slice_to_prefix (n : Z) (l : list A) : slice_to n l `prefix_of` l.
Proof. unfold slice_to. destruct (0 <=? n)%Z; apply prefix_take. Qed.

Lemma slice_to_pos (n : Z) (l : list A) :
  (0 <= n)%Z → slice_to n l = take (Z.to_nat n) l.
Proof. intros Hn. unfold slice_to. by rewrite (proj2 (Z.leb_le 0 n) Hn). Qed.
End slice_facts.

Section stable_sort_facts.
Context {A : Type} (key : A → Q) (reverse : bool).

Local Abbreviation before := (precedes key reverse).

Lemma precedes_total (x y : A) : before x y = false → before y x = true.
Proof.
  unfold precedes. destruct reverse; intros Hxy; apply Qle_bool_iff;
    apply Qlt_le_weak, Qnot_le_lt; intros Hle;
    apply Qle_bool_iff in Hle; congruence.
Qed.

Lemma precedes_trans (x y z : A) :
  before x y = true → before y z = true → before x z = true.
Proof.
  unfold precedes. destruct reverse; rewrite !Qle_bool_iff; intros ? ?;
    eapply Qle_trans; eassumption.
Qed.

Lemma precedes_same_key (x y : A) : key x == key y → before x y = true.
Proof.
  unfold precedes. intros Heq. destruct reverse; apply Qle_bool_iff;
    rewrite Heq; apply Qle_refl.
Qed.

Lemma insert_sorted_perm (x : A) (l : list A) :
  insert_sorted key reverse x l ≡ₚ x :: l.
Proof.
  induction l as [|y l IH]; simpl; [done|].
  destruct (before x y); [done|]. rewrite IH. apply Permutation_swap.
Qed.

Lemma stable_sort_perm (l : list A) : stable_sort key reverse l ≡ₚ l.
Proof.
  induction l as [|x l IH]; simpl; [done|].
  by rewrite insert_sorted_perm, IH.
Qed.

Lemma stable_sort_length (l : list A) : length (stable_sort key reverse l) = length l.
Proof. apply Permutation_length, stable_sort_perm. Qed.

Lemma insert_sorted_ordered (x : A) (l : list A) :
  StronglySorted (λ a b, before a b = true) l →
  StronglySorted (λ a b, before a b = true) (insert_sorted key reverse x l).
Proof.
  induction 1 as [|y l Hl IH Hy]; simpl.
  - repeat constructor.
  - destruct (before x y) eqn:Hxy.
    + constructor; [by constructor|]. constructor; [done|].
      eapply Forall_impl; [exact Hy|]. intros z Hz.
      by eapply precedes_trans.
    + constructor; [done|]. rewrite insert_sorted_perm.
      constructor; [by apply precedes_total | done].
Qed.

Lemma stable_sort_ordered (l : list A) :
  StronglySorted (λ a b, before a b = true) (stable_sort key reverse l).
Proof.
  induction l as [|x l IH]; simpl; [constructor|].
  by apply insert_sorted_ordered.
Qed.

(** In a sorted list everything in a front part precedes everything in the
    rest. *)
Lemma stable_sort_app_precedes (l l1 l2 : list A) (x y : A) :
  stable_sort key reverse l = l1 ++ l2 → x ∈ l1 → y ∈ l2 → before x y = true.
Proof.
  intros Heq Hx Hy. pose proof (stable_sort_ordered l) as Hs.
  rewrite Heq in Hs. clear Heq.
  induction l1 as [|a l1 IH]; simpl in *; [by apply elem_of_nil in Hx|].
  apply StronglySorted_inv in Hs as [Hs Ha].
  apply elem_of_cons in Hx as [->|Hx]; [|by apply IH].
  rewrite Forall_forall in Ha. apply Ha, elem_of_app. by right.
Qed.

(** Stability: elements that share a key keep their order.  Stated for a
    class [P] of elements any two of which may precede one another. *)
Lemma insert_sorted_filter (P : A → Prop) `{!∀ a, Decision (P a)} x l :
  (∀ y, P x → P y → before x y = true) →
  filter P (insert_sorted key reverse x l) = filter P (x :: l).
Proof.
  intros HP. induction l as [|y l IH]; simpl; [done|].
  destruct (before x y) eqn:Hxy; [done|].
  rewrite filter_cons, IH, !filter_cons.
  destruct (decide (P x)) as [Hx|Hx]; [|done].
  destruct (decide (P y)) as [Hy|Hy]; [|done].
  rewrite (HP y Hx Hy) in Hxy. done.
Qed.

Lemma stable_sort_filter (P : A → Prop) `{!∀ a, Decision (P a)} l :
  (∀ x y, P x → P y → before x y = true) →
  filter P (stable_sort key reverse l) = filter P l.
Proof.
  intros HP. induction l as [|x l IH]; simpl; [done|].
  rewrite insert_sorted_filter by (intros y; apply HP).
  by rewrite !filter_cons, IH.
Qed.

Lemma stable_sort_stable (q : Q) (l : list A) :
  filter (λ x, Qeq_bool (key x) q) (stable_sort key reverse l)
  = filter (λ x, Qeq_bool (key x) q) l.
Proof.
  apply stable_sort_filter. intros x y Hx Hy. apply precedes_same_key.
  apply Is_true_true, Qeq_bool_iff in Hx, Hy. by rewrite Hx, Hy.
Qed.

Lemma precedes_antisym (x y : A) :
  before x y = true → before y x = true → (key x == key y)%Q.
Proof.
  unfold precedes. destruct reverse; rewrite !Qle_bool_iff; intros ? ?;
    by apply Qle_antisym.
Qed.

Lemma filter_key_head (x : A) (l : list A) :
  filter (λ y, Qeq_bool (key y) (key x)) (x :: l)
  = x :: filter (λ y, Qeq_bool (key y) (key x)) l.
Proof. apply filter_cons_True, Is_true_true, Qeq_bool_iff, Qeq_refl. Qed.

(** The contract determines the result: a ranked list in which the elements
    of every key stand as they do in [l] is the sorted list, so that every
    stable sorting function agrees with [stable_sort]. *)
Lemma ordered_classes_eq (l1 l2 : list A) :
  StronglySorted (λ a b, before a b = true) l1 →
  StronglySorted (λ a b, before a b = true) l2 →
  (∀ q, filter (λ x, Qeq_bool (key x) q) l1
        = filter (λ x, Qeq_bool (key x) q) l2) →
  l1 = l2.
Proof.
  revert l2. induction l1 as [|x l1 IH]; intros [|y l2] Hs1 Hs2 Hcl.
  - done.
  - specialize (Hcl (key y)). by rewrite filter_key_head in Hcl.
  - specialize (Hcl (key x)). by rewrite filter_key_head in Hcl.
  - apply StronglySorted_inv in Hs1 as [Hs1 Hx].
    apply StronglySorted_inv in Hs2 as [Hs2 Hy].
    rewrite Forall_forall in Hx, Hy.
    assert (x = y) as <-.
    { pose proof (Hcl (key x)) as Hxcl. pose proof (Hcl (key y)) as Hycl.
      rewrite filter_key_head in Hxcl. rewrite filter_key_head in Hycl.
      rewrite filter_cons in Hxcl. rewrite filter_cons in Hycl.
      destruct (decide (Qeq_bool (key y) (key x))) as [Heq|Hne];
        [congruence|].
      destruct (decide (Qeq_bool (key x) (key y))) as [Heq|_].
      { destruct Hne. apply Is_true_true, Qeq_bool_iff.
        apply Is_true_true, Qeq_bool_iff in Heq. by symmetry. }
      assert (x ∈ l2) as Hx2.
      { eapply (proj1 (list_elem_of_filter _ _ _)). rewrite <- Hxcl.
        by left. }
      assert (y ∈ l1) as Hy1.
      { eapply (proj1 (list_elem_of_filter _ _ _)). rewrite Hycl.
        by left. }
      destruct Hne. apply Is_true_true, Qeq_bool_iff.
      apply precedes_antisym; auto. }
    f_equal. apply IH; [done|done|]. intros q. specialize (Hcl q).
    rewrite !filter_cons in Hcl.
    destruct (decide (Qeq_bool (key x) q)); congruence.
Qed.

Lemma stable_sort_unique (l l' : list A) :
  StronglySorted (λ a b, before a b = true) l' →
  (∀ q, filter (λ x, Qeq_bool (key x) q) l'
        = filter (λ x, Qeq_bool (key x) q) l) →
  l' = stable_sort key reverse l.
Proof.
  intros Hs Hcl. apply ordered_classes_eq; [done|apply stable_sort_ordered|].
  intros q. by rewrite stable_sort_stable.
Qed.
End stable_sort_facts.


(** ** The sort of CPython *)

Section list_sort_perm.
Context {A : Type} (lt : A → A → bool).

Lemma insert_pivot_perm (run : list A) (x : A) :
  insert_pivot lt run x ≡ₚ x :: run.
Proof.
  unfold insert_pivot. rewrite <- Permutation_middle. by rewrite take_drop.
Qed.

Lemma elem_of_insert_pivot (a : A) (run : list A) (x : A) :
  a ∈ insert_pivot lt run x ↔ a = x ∨ a ∈ run.
Proof. by rewrite insert_pivot_perm, elem_of_cons. Qed.

Lemma binarysort_perm (run rest : list A) :
  binarysort lt run rest ≡ₚ run ++ rest.
Proof.
  unfold binarysort. revert run.
  induction rest as [|x rest IH]; intros run; simpl.
  - by rewrite app_nil_r.
  - rewrite IH, insert_pivot_perm. simpl. apply Permutation_middle.
Qed.

Lemma list_sort_perm (l : list A) : list_sort lt l ≡ₚ l.
Proof.
  unfold list_sort. destruct (count_run lt l) as [n d].
  rewrite binarysort_perm.
  destruct d; [rewrite reverse_Permutation|]; by rewrite take_drop.
Qed.
End list_sort_perm.

(** Whatever the keys, [sorted] returns the elements of the list. *)
Lemma sorted_perm {A : Type} (key : A → float) (r : bool) (l : list A) :
  sorted key r l ≡ₚ l.
Proof.
  unfold sorted. destruct r; [rewrite reverse_Permutation|];
    rewrite list_sort_perm; [apply reverse_Permutation | done].
Qed.

Ltac in_goal :=
  first [ assumption | reflexivity | left; in_goal | right; in_goal ].

Ltac list_in :=
  rewrite ?elem_of_cons, ?elem_of_app, ?elem_of_reverse in *;
  repeat match goal with H : _ ∨ _ |- _ => destruct H end; subst; in_goal.

(** The sort looks at the list through the comparison only: two comparisons
    that agree on the elements of the list sort it alike. *)
Section list_sort_ext.
Context {A : Type} (lt lt' : A → A → bool).

Lemma run_ascending_ext (prev : A) (l : list A) :
  (∀ x y, x ∈ prev :: l → y ∈ prev :: l → lt x y = lt' x y) →
  run_ascending lt prev l = run_ascending lt' prev l.
Proof.
  revert prev. induction l as [|x l IH]; intros prev Hag; simpl; [done|].
  rewrite (Hag x prev) by list_in.
  destruct (lt' x prev); [done|]. f_equal. apply IH.
  intros a b Ha Hb. apply Hag; list_in.
Qed.

Lemma run_descending_ext (prev : A) (l : list A) :
  (∀ x y, x ∈ prev :: l → y ∈ prev :: l → lt x y = lt' x y) →
  run_descending lt prev l = run_descending lt' prev l.
Proof.
  revert prev. induction l as [|x l IH]; intros prev Hag; simpl; [done|].
  rewrite (Hag x prev) by list_in.
  destruct (lt' x prev); [|done]. f_equal. apply IH.
  intros a b Ha Hb. apply Hag; list_in.
Qed.

Lemma count_run_ext (l : list A) :
  (∀ x y, x ∈ l → y ∈ l → lt x y = lt' x y) →
  count_run lt l = count_run lt' l.
Proof.
  intros Hag. destruct l as [|x [|y l]]; simpl; [done|done|].
  rewrite (Hag y x) by list_in.
  destruct (lt' y x).
  - rewrite run_descending_ext; [done|].
    intros a b Ha Hb. apply Hag; list_in.
  - rewrite run_ascending_ext; [done|].
    intros a b Ha Hb. apply Hag; list_in.
Qed.

Lemma bisect_ext (fuel : nat) (pivot : A) (run : list A) (l r : nat) :
  (∀ e, e ∈ run → lt pivot e = lt' pivot e) →
  bisect lt fuel pivot run l r = bisect lt' fuel pivot run l r.
Proof.
  intros Hag. revert l r. induction fuel as [|fuel IH]; intros l r; simpl;
    [done|].
  destruct (bool_decide (l < r)); [|done].
  destruct (run !! (l + Nat.div2 (r - l))) as [e|] eqn:He; [|done].
  rewrite (Hag e) by (by eapply list_elem_of_lookup_2).
  destruct (lt' pivot e); apply IH.
Qed.

Lemma binarysort_ext (run rest : list A) :
  (∀ x y, x ∈ run ++ rest → y ∈ run ++ rest → lt x y = lt' x y) →
  binarysort lt run rest = binarysort lt' run rest.
Proof.
  unfold binarysort. revert run.
  induction rest as [|x rest IH]; intros run Hag; simpl; [done|].
  assert (insert_pivot lt run x = insert_pivot lt' run x) as ->.
  { unfold insert_pivot. rewrite bisect_ext; [done|].
    intros e He. apply Hag; list_in. }
  apply IH. intros a b Ha Hb.
  rewrite elem_of_app, elem_of_insert_pivot in Ha, Hb.
  apply Hag; list_in.
Qed.

Lemma list_sort_ext (l : list A) :
  (∀ x y, x ∈ l → y ∈ l → lt x y = lt' x y) →
  list_sort lt l = list_sort lt' l.
Proof.
  intros Hag. unfold list_sort. rewrite (count_run_ext l Hag).
  destruct (count_run lt' l) as [n d]. apply binarysort_ext.
  intros a b Ha Hb.
  assert (∀ c, c ∈ (if d then reverse (take n l) else take n l) ++ drop n l
               → c ∈ l) as Hin.
  { intros c Hc.
    assert (c ∈ take n l ++ drop n l) as Hc' by (destruct d; list_in).
    by rewrite take_drop in Hc'. }
  apply Hag; by apply Hin.
Qed.
End list_sort_ext.

Section order_facts.
Context {A : Type}.

Lemma prefix_filter_mono (P : A → Prop) `{!∀ a, Decision (P a)} (l1 l2 : list A) :
  l1 `prefix_of` l2 → filter P l1 `prefix_of` filter P l2.
Proof. intros [k' ->]. rewrite filter_app. by eexists. Qed.

Lemma prefix_fmap {B : Type} (f : A → B) (l1 l2 : list A) :
  l1 `prefix_of` l2 → f <$> l1 `prefix_of` f <$> l2.
Proof. intros [k' ->]. rewrite fmap_app. by eexists. Qed.

Lemma StronglySorted_impl (R1 R2 : A → A → Prop) (l : list A) :
  (∀ x y, R1 x y → R2 x y) → StronglySorted R1 l → StronglySorted R2 l.
Proof.
  intros HR. induction 1 as [|x l _ IH Hx]; constructor; [done|].
  eapply Forall_impl; [exact Hx|]. auto.
Qed.

Lemma StronglySorted_prefix (R : A → A → Prop) (l1 l2 : list A) :
  l1 `prefix_of` l2 → StronglySorted R l2 → StronglySorted R l1.
Proof.
  intros [k' ->]. induction l1 as [|x l1 IH]; simpl; [constructor|].
  intros [Hs Hx]%StronglySorted_inv. constructor; [by apply IH|].
  by apply Forall_app in Hx as [? _].
Qed.
End order_facts.


(** On numeric keys the sort of CPython is the stable sort. *)
Section list_sort_total.
Context {A : Type} (key : A → Q).

Local Abbreviation ltq := (λ x y : A, negb (Qle_bool (key y) (key x))).
Local Abbreviation le := (λ a b : A, precedes key false a b = true).
Local Abbreviation gt := (λ a b : A, (key b < key a)%Q).
Local Abbreviation class := (λ (q : Q) (x : A), Is_true (Qeq_bool (key x) q)).

Lemma ltq_false (x y : A) : ltq x y = false ↔ (key y <= key x)%Q.
Proof. by rewrite negb_false_iff, Qle_bool_iff. Qed.

Lemma ltq_true (x y : A) : ltq x y = true ↔ (key x < key y)%Q.
Proof.
  rewrite negb_true_iff, <- not_true_iff_false, Qle_bool_iff. split.
  - apply Qnot_le_lt.
  - apply Qlt_not_le.
Qed.

Lemma le_iff (a b : A) : le a b ↔ (key a <= key b)%Q.
Proof. unfold precedes. apply Qle_bool_iff. Qed.

Lemma StronglySorted_lookup (R : A → A → Prop) (l : list A) (i j : nat)
    (x y : A) :
  StronglySorted R l → i < j → l !! i = Some x → l !! j = Some y → R x y.
Proof.
  intros Hs. revert i j. induction Hs as [|a l _ IH Ha]; intros i j Hij Hi Hj;
    [done|].
  destruct j as [|j]; [lia|]. destruct i as [|i]; simpl in *.
  - injection Hi as <-. rewrite Forall_forall in Ha.
    apply Ha. by eapply list_elem_of_lookup_2.
  - apply (IH i j); [lia|done|done].
Qed.

Lemma StronglySorted_reverse (R : A → A → Prop) (l : list A) :
  StronglySorted R l → StronglySorted (flip R) (reverse l).
Proof.
  induction 1 as [|x l _ IH Hx]; [constructor|].
  rewrite reverse_cons. apply StronglySorted_app_2; [|done|repeat constructor].
  intros a b Ha Hb. apply list_elem_of_singleton in Hb as ->.
  rewrite Forall_forall in Hx. apply Hx. by apply elem_of_reverse.
Qed.

Lemma filter_none (P : A → Prop) `{!∀ a, Decision (P a)} (l : list A) :
  Forall (λ x, ¬ P x) l → filter P l = [].
Proof.
  induction 1 as [|x l Hx _ IH]; [done|]. by rewrite filter_cons_False.
Qed.

(** The binary search finds the place behind the elements that do not
    exceed the pivot. *)
Lemma bisect_spec (fuel : nat) (pivot : A) (run : list A) (l r : nat) :
  StronglySorted le run →
  l ≤ r → r ≤ length run → r - l ≤ fuel →
  (∀ j e, j < l → run !! j = Some e → (key e <= key pivot)%Q) →
  (∀ j e, r ≤ j → run !! j = Some e → (key pivot < key e)%Q) →
  (∀ j e, j < bisect ltq fuel pivot run l r → run !! j = Some e →
          (key e <= key pivot)%Q)
  ∧ (∀ j e, bisect ltq fuel pivot run l r ≤ j → run !! j = Some e →
            (key pivot < key e)%Q).
Proof.
  intros Hs. revert l r.
  induction fuel as [|fuel IH]; intros l r Hlr Hr Hfuel Hlow Hhigh;
    cbn [bisect].
  { assert (l = r) as -> by lia. done. }
  case_bool_decide as Hlt; [|by assert (l = r) as -> by lia].
  assert (∃ p, p = l + Nat.div2 (r - l) ∧ l ≤ p < r) as (p & <- & Hp).
  { assert (Nat.div2 (r - l) < r - l) as Hdiv by (apply Nat.lt_div2; lia).
    eexists. split; [done|]. revert Hdiv.
    generalize (Nat.div2 (r - l)). intros d Hd. lia. }
  destruct (lookup_lt_is_Some_2 run p) as [e He]; [lia|]. rewrite He.
  destruct (negb (Qle_bool (key e) (key pivot))) eqn:Hcmp.
  - apply ltq_true in Hcmp. apply IH; [lia|lia|lia|done|].
    intros j e' Hj He'. destruct (decide (j = p)) as [->|Hne].
    + by replace e' with e by congruence.
    + eapply Qlt_le_trans; [exact Hcmp|]. apply le_iff.
      by apply (StronglySorted_lookup le run p j); [|lia| |].
  - apply ltq_false in Hcmp. apply IH; [lia|lia|lia| |done].
    intros j e' Hj He'. destruct (decide (j = p)) as [->|Hne].
    + by replace e' with e by congruence.
    + eapply Qle_trans; [|exact Hcmp]. apply le_iff.
      by apply (StronglySorted_lookup le run j p); [|lia| |].
Qed.

Lemma insert_pivot_split (run : list A) (pivot : A) :
  StronglySorted le run →
  ∃ i, insert_pivot ltq run pivot = take i run ++ pivot :: drop i run
       ∧ Forall (λ e, (key e <= key pivot)%Q) (take i run)
       ∧ Forall (λ e, (key pivot < key e)%Q) (drop i run).
Proof.
  intros Hs. exists (bisect ltq (length run) pivot run 0 (length run)).
  destruct (bisect_spec (length run) pivot run 0 (length run) Hs)
    as [Hlow Hhigh]; [lia|lia|lia| | |].
  { intros j e Hj. lia. }
  { intros j e Hj He. apply lookup_lt_Some in He. lia. }
  split; [done|]. split.
  - apply Forall_forall. intros e (j & He & Hj)%elem_of_take. eauto.
  - apply Forall_lookup. intros j e He. rewrite lookup_drop in He.
    eapply Hhigh; [|exact He]. lia.
Qed.

Lemma insert_pivot_ordered (run : list A) (pivot : A) :
  StronglySorted le run → StronglySorted le (insert_pivot ltq run pivot).
Proof.
  intros Hs. destruct (insert_pivot_split run pivot Hs)
    as (i & -> & Hlow & Hhigh).
  rewrite Forall_forall in Hlow, Hhigh.
  rewrite <- (take_drop i run) in Hs.
  apply StronglySorted_app_2.
  - intros a b Ha [->|Hb]%elem_of_cons; apply le_iff; [by apply Hlow|].
    eapply Qle_trans; [by apply Hlow|]. by apply Qlt_le_weak, Hhigh.
  - by apply StronglySorted_app_1_l in Hs.
  - constructor; [by apply StronglySorted_app_1_r in Hs|].
    apply Forall_forall. intros b Hb. by apply le_iff, Qlt_le_weak, Hhigh.
Qed.

Lemma insert_pivot_class (q : Q) (run : list A) (pivot : A) :
  StronglySorted le run →
  filter (class q) (insert_pivot ltq run pivot)
  = filter (class q) (run ++ [pivot]).
Proof.
  intros Hs. destruct (insert_pivot_split run pivot Hs)
    as (i & -> & _ & Hhigh).
  rewrite <- (take_drop i run) at 3.
  rewrite !filter_app, filter_cons, <- app_assoc. f_equal.
  rewrite (filter_cons _ pivot []), filter_nil.
  destruct (decide (class q pivot)) as [Hp|Hp]; [|by rewrite app_nil_r].
  rewrite filter_none; [done|].
  eapply Forall_impl; [exact Hhigh|]. intros e He Hq. simpl in He.
  apply Is_true_true, Qeq_bool_iff in Hp, Hq.
  rewrite Hp, Hq in He. by apply Qlt_irrefl in He.
Qed.

Lemma binarysort_total (run rest : list A) :
  StronglySorted le run →
  StronglySorted le (binarysort ltq run rest)
  ∧ ∀ q, filter (class q) (binarysort ltq run rest)
         = filter (class q) (run ++ rest).
Proof.
  unfold binarysort. revert run.
  induction rest as [|x rest IH]; intros run Hs; simpl.
  - split; [done|]. intros q. by rewrite app_nil_r.
  - destruct (IH _ (insert_pivot_ordered run x Hs)) as [Hs' Hcl].
    split; [done|]. intros q.
    rewrite Hcl, filter_app, insert_pivot_class by done.
    rewrite <- filter_app, <- app_assoc. done.
Qed.

Lemma run_ascending_ordered (prev : A) (l : list A) :
  StronglySorted le (prev :: take (run_ascending ltq prev l) l).
Proof.
  revert prev. induction l as [|x l IH]; intros prev; simpl.
  { repeat constructor. }
  destruct (negb (Qle_bool (key prev) (key x))) eqn:Hcmp; simpl.
  { repeat constructor. }
  apply ltq_false in Hcmp. specialize (IH x).
  constructor; [done|]. constructor; [by apply le_iff|].
  apply StronglySorted_inv in IH as [_ Hx].
  eapply Forall_impl; [exact Hx|]. intros y Hy. simpl in Hy.
  apply le_iff. apply le_iff in Hy. by eapply Qle_trans.
Qed.

Lemma run_descending_ordered (prev : A) (l : list A) :
  StronglySorted gt (prev :: take (run_descending ltq prev l) l).
Proof.
  revert prev. induction l as [|x l IH]; intros prev; simpl.
  { repeat constructor. }
  destruct (negb (Qle_bool (key prev) (key x))) eqn:Hcmp; simpl.
  2: { repeat constructor. }
  apply ltq_true in Hcmp. specialize (IH x).
  constructor; [done|]. constructor; [done|].
  apply StronglySorted_inv in IH as [_ Hx].
  eapply Forall_impl; [exact Hx|]. intros y Hy. simpl in Hy.
  by eapply Qlt_trans.
Qed.

Lemma count_run_spec (l : list A) (n : nat) (d : bool) :
  count_run ltq l = (n, d) →
  if d then StronglySorted gt (take n l) else StronglySorted le (take n l).
Proof.
  destruct l as [|x [|y l]]; simpl.
  - intros [= <- <-]. simpl. constructor.
  - intros [= <- <-]. simpl. repeat constructor.
  - destruct (negb (Qle_bool (key x) (key y))) eqn:Hcmp; intros [= <- <-].
    + pose proof (run_descending_ordered x (y :: l)) as Hs.
      simpl in Hs. by rewrite Hcmp in Hs.
    + pose proof (run_ascending_ordered x (y :: l)) as Hs.
      simpl in Hs. by rewrite Hcmp in Hs.
Qed.

Lemma descending_class_reverse (q : Q) (l : list A) :
  StronglySorted gt l →
  filter (class q) (reverse l) = filter (class q) l.
Proof.
  induction 1 as [|x l _ IH Hx]; [done|].
  rewrite reverse_cons, filter_app, IH.
  rewrite (filter_cons _ x l), (filter_cons _ x []), filter_nil.
  destruct (decide (class q x)) as [Hp|Hp]; [|by rewrite app_nil_r].
  rewrite filter_none; [done|].
  eapply Forall_impl; [exact Hx|]. intros e He Hq. simpl in He.
  apply Is_true_true, Qeq_bool_iff in Hp, Hq.
  rewrite Hp, Hq in He. by apply Qlt_irrefl in He.
Qed.

Lemma list_sort_total (l : list A) :
  StronglySorted le (list_sort ltq l)
  ∧ ∀ q, filter (class q) (list_sort ltq l) = filter (class q) l.
Proof.
  unfold list_sort. destruct (count_run ltq l) as [n d] eqn:Hrun.
  apply count_run_spec in Hrun. destruct d.
  - assert (StronglySorted le (reverse (take n l))) as Hs.
    { apply StronglySorted_reverse in Hrun.
      eapply StronglySorted_impl; [|exact Hrun].
      intros a b Hab. apply le_iff. by apply Qlt_le_weak. }
    destruct (binarysort_total _ (drop n l) Hs) as [Hs' Hcl].
    split; [done|]. intros q.
    rewrite Hcl, filter_app, descending_class_reverse, <- filter_app by done.
    by rewrite take_drop.
  - destruct (binarysort_total _ (drop n l) Hrun) as [Hs' Hcl].
    split; [done|]. intros q. by rewrite Hcl, take_drop.
Qed.

Lemma list_sort_stable_sort (r : bool) (l : list A) :
  (if r then reverse (list_sort ltq (reverse l)) else list_sort ltq l)
  = stable_sort key r l.
Proof.
  apply stable_sort_unique; destruct r.
  - destruct (list_sort_total (reverse l)) as [Hs _].
    apply StronglySorted_reverse in Hs. exact Hs.
  - by destruct (list_sort_total l) as [Hs _].
  - intros q. destruct (list_sort_total (reverse l)) as [_ Hcl].
    rewrite filter_reverse, (Hcl q), filter_reverse.
    apply reverse_involutive.
  - intros q. by destruct (list_sort_total l) as [_ Hcl].
Qed.
End list_sort_total.

(** When no key is [NaN], [sorted] is the stable sort of the numbers held
    by the keys. *)
Lemma sorted_no_nan {A : Type} (key : A → float) (r : bool) (l : list A) :
  Forall (λ x, key x ≠ NaN) l →
  sorted key r l = stable_sort (λ x, num (key x)) r l.
Proof.
  intros Hnan. rewrite <- list_sort_stable_sort. unfold sorted.
  assert (∀ l', (∀ x, x ∈ l' → x ∈ l) →
            list_sort (λ x y, float_lt (key x) (key y)) l'
            = list_sort (λ x y, negb (Qle_bool (num (key y)) (num (key x))))
                        l') as Hext.
  { intros l' Hin. apply list_sort_ext. intros x y Hx Hy.
    rewrite Forall_forall in Hnan.
    pose proof (Hnan x (Hin x Hx)) as Hkx.
    pose proof (Hnan y (Hin y Hy)) as Hky.
    by destruct (key x), (key y). }
  destruct r; rewrite Hext; try done.
  intros x. apply elem_of_reverse.
Qed.

(** ** Lists *)

Section list_facts.
Context {A : Type}.

Lemma filter_sublist_mono (P : A → Prop) `{!∀ a, Decision (P a)} (l1 l2 : list A) :
  l1 `sublist_of` l2 → filter P l1 `sublist_of` filter P l2.
Proof.
  induction 1 as [|x l1 l2 _ IH|x l1 l2 _ IH]; rewrite ?filter_cons;
    [done| |]; destruct (decide (P x)); auto using sublist_skip, sublist_cons.
Qed.

Lemma filter_negb (f : A → bool) (l : list A) :
  filter (λ x, negb (f x)) l = filter (λ x, ¬ f x) l.
Proof. apply list_filter_iff. intros x. apply negb_True. Qed.

Lemma filter_fmap_pair {B : Type} (g : A → B) (P : B * A → Prop)
    `{!∀ p, Decision (P p)} (l : list A) :
  (filter P ((λ a, (g a, a)) <$> l)).*2 = filter (λ a, P (g a, a)) l.
Proof.
  induction l as [|a l IH]; [done|]. rewrite fmap_cons, !filter_cons.
  destruct (decide (P (g a, a))); [rewrite fmap_cons; simpl; f_equal|];
    exact IH.
Qed.

Lemma zip_fmap_pair {B : Type} (g : A → B) (l : list A) :
  zip (g <$> l) l = (λ a, (g a, a)) <$> l.
Proof. induction l as [|a l IH]; [done|]. rewrite !fmap_cons. simpl. by f_equal. Qed.

Lemma fst_zip_sublist {B : Type} (l : list A) (k : list B) :
  (zip l k).*1 `sublist_of` l.
Proof.
  revert k. induction l as [|a l IH]; intros [|b k]; simpl; try done.
  - apply sublist_nil_l.
  - apply sublist_skip, IH.
Qed.

Lemma filter_ext_in (P1 P2 : A → Prop) `{!∀ a, Decision (P1 a)}
    `{!∀ a, Decision (P2 a)} (l : list A) :
  (∀ x, x ∈ l → (P1 x ↔ P2 x)) → filter P1 l = filter P2 l.
Proof.
  induction l as [|x l IH]; intros Hext; [done|]. rewrite !filter_cons.
  rewrite IH by (intros y Hy; apply Hext; by right).
  destruct (decide (P1 x)) as [H1|H1], (decide (P2 x)) as [H2|H2];
    try done; exfalso; apply (Hext x) in H1 || apply (Hext x) in H2;
    try done; by left.
Qed.

Lemma StronglySorted_impl_Forall (R1 R2 : A → A → Prop) (G : A → Prop)
    (l : list A) :
  (∀ x y, G x → G y → R1 x y → R2 x y) → Forall G l →
  StronglySorted R1 l → StronglySorted R2 l.
Proof.
  intros HR HG. induction 1 as [|x l _ IH Hx]; [constructor|].
  apply Forall_cons in HG as [Hgx HG]. constructor; [by apply IH|].
  rewrite Forall_forall in Hx, HG. apply Forall_forall. intros y Hy.
  apply HR; auto.
Qed.

Lemma prefix_sublist (l1 l2 : list A) : l1 `prefix_of` l2 → l1 `sublist_of` l2.
Proof. intros [k ->]. by apply sublist_inserts_r. Qed.

(** Selecting by a mask computed from the position is selecting by
    position. *)
Lemma filter_zip_mask (f : nat → Prop) `{!∀ j, Decision (f j)}
    (l : list A) (js : list nat) :
  (filter (λ p : A * bool, negb p.2)
          (zip l ((λ j, bool_decide (f j)) <$> js))).*1
  = (filter (λ p : nat * A, ¬ f p.1) (zip js l)).*2.
Proof.
  revert js. induction l as [|a l IH]; intros [|j js]; try done.
  simpl. rewrite !filter_cons. simpl.
  destruct (decide (f j)) as [Hj|Hj].
  - rewrite (bool_decide_eq_true_2 _ Hj). simpl.
    destruct (decide (¬ f j)); [done|]. apply IH.
  - rewrite (bool_decide_eq_false_2 _ Hj). simpl.
    destruct (decide (¬ f j)); [|done]. simpl. by rewrite IH.
Qed.
End list_facts.

(** ** SelectBestFeatures: the selection *)

Section select_facts.
Context `{ClassVar} (self : SelectBestFeatures) (data : Table).

Local Abbreviation score_of := (λ f : Var, score (method self) f data).

Lemma zip_scores_features :
  zip (scores self data) (features self data)
  = (λ f, (score_of f, f)) <$> features self data.
Proof. apply zip_fmap_pair. Qed.

Lemma best_sorted_perm :
  best_sorted self data ≡ₚ zip (scores self data) (features self data).
Proof. apply sorted_perm. Qed.

Lemma best_sorted_features : (best_sorted self data).*2 ≡ₚ features self data.
Proof.
  rewrite best_sorted_perm, zip_scores_features, <- list_fmap_compose.
  by rewrite list_fmap_id.
Qed.

Lemma best_sorted_length :
  length (best_sorted self data) = length (features self data).
Proof. by rewrite <- (length_fmap snd), best_sorted_features. Qed.

Lemma best_k_prefix : best_k self data `prefix_of` best_sorted self data.
Proof.
  unfold best_k. destruct (k self) as [n|]; [|done].
  destruct (truthy_int n); [apply slice_to_prefix | done].
Qed.

Lemma best_prefix_k : best self data `prefix_of` best_k self data.
Proof.
  unfold best. destruct (threshold self) as [t|]; [|done].
  destruct (truthy_num t); [apply takewhile_prefix | done].
Qed.

Lemma best_prefix : best self data `prefix_of` best_sorted self data.
Proof. etrans; [apply best_prefix_k | apply best_k_prefix]. Qed.

Lemma best_features : (best self data).*2 ⊆+ features self data.
Proof.
  rewrite <- best_sorted_features.
  apply sublist_submseteq, fmap_sublist, prefix_sublist, best_prefix.
Qed.

Lemma other_sublist : other self data `sublist_of` attributes (domain data).
Proof. apply sublist_filter. Qed.

Lemma features_sublist : features self data `sublist_of` attributes (domain data).
Proof. apply sublist_filter. Qed.

Lemma features_other_perm :
  features self data ++ other self data ≡ₚ attributes (domain data).
Proof.
  unfold features, other. rewrite filter_negb. apply filter_app_complement.
Qed.

Lemma pred_meets (t : Q) (x : float * Var) :
  pred self t x = true ↔ score_meets (decreasing self) t x.1.
Proof.
  unfold pred, score_meets, meets.
  destruct (decreasing self), x.1; simpl; try apply Qle_bool_iff; done.
Qed.

Lemma precedes_ranks_before (x y : float * Var) :
  x.1 ≠ NaN → y.1 ≠ NaN →
  precedes (λ z : float * Var, num z.1) (decreasing self) x y = true
  ↔ ranks_before (decreasing self) x y.
Proof.
  unfold precedes, ranks_before. intros Hx Hy.
  destruct x.1, y.1; try done. destruct (decreasing self); apply Qle_bool_iff.
Qed.

Lemma truthy_num_true (t : Q) : truthy_num t = true ↔ ¬ (t == 0)%Q.
Proof.
  unfold truthy_num. rewrite negb_true_iff, <- not_true_iff_false.
  by rewrite Qeq_bool_iff.
Qed.

Lemma truthy_int_pos (n : Z) : (0 < n)%Z → truthy_int n = true.
Proof. intros Hn. unfold truthy_int. apply negb_true_iff, Z.eqb_neq. lia. Qed.

(** *** When no score is NaN *)

Lemma scores_no_nan :
  no_nan_score (method self) data →
  Forall (λ x : float * Var, x.1 ≠ NaN)
         (zip (scores self data) (features self data)).
Proof.
  intros Hnan. rewrite zip_scores_features. apply Forall_fmap, Forall_forall.
  intros f [Hf Hin]%list_elem_of_filter. simpl.
  apply Hnan; [done|]. by apply Is_true_true.
Qed.

Lemma best_sorted_no_nan :
  no_nan_score (method self) data →
  Forall (λ x : float * Var, x.1 ≠ NaN) (best_sorted self data).
Proof. intros Hnan. rewrite best_sorted_perm. by apply scores_no_nan. Qed.

Lemma best_sorted_stable_sort :
  no_nan_score (method self) data →
  best_sorted self data
  = stable_sort (λ x : float * Var, num x.1) (decreasing self)
                (zip (scores self data) (features self data)).
Proof. intros Hnan. by apply sorted_no_nan, scores_no_nan. Qed.

Lemma float_class (q : Q) (v : float) :
  v ≠ NaN → float_eqb v (Num q) ↔ Qeq_bool (num v) q.
Proof. by destruct v. Qed.

Lemma best_sorted_ranked :
  no_nan_score (method self) data →
  StronglySorted (ranks_before (decreasing self)) (best_sorted self data).
Proof.
  intros Hnan.
  apply (StronglySorted_impl_Forall
           (λ a b, precedes (λ z : float * Var, num z.1) (decreasing self) a b
                   = true)
           _ (λ x, x.1 ≠ NaN)).
  - intros x y Hx Hy. by apply precedes_ranks_before.
  - by apply best_sorted_no_nan.
  - rewrite best_sorted_stable_sort by done. apply stable_sort_ordered.
Qed.

(** Pairs with the score [q] stand in the sorted list as they do in the
    attribute list. *)
Lemma best_sorted_stable_pairs (q : Q) :
  no_nan_score (method self) data →
  filter (λ x, float_eqb x.1 (Num q)) (best_sorted self data)
  = filter (λ x, float_eqb x.1 (Num q))
           (zip (scores self data) (features self data)).
Proof.
  intros Hnan.
  rewrite (filter_ext_in _ (λ x : float * Var, Qeq_bool (num x.1) q)).
  2: { intros x Hx. apply float_class.
       pose proof (best_sorted_no_nan Hnan) as Hall.
       rewrite Forall_forall in Hall. by apply Hall. }
  rewrite best_sorted_stable_sort by done.
  rewrite (stable_sort_stable (λ x : float * Var, num x.1)).
  apply filter_ext_in. intros x Hx. symmetry. apply float_class.
  pose proof (scores_no_nan Hnan) as Hall.
  rewrite Forall_forall in Hall. by apply Hall.
Qed.

Lemma best_sorted_stable (q : Q) :
  no_nan_score (method self) data →
  (filter (λ x, float_eqb x.1 (Num q)) (best_sorted self data)).*2
  = filter (λ f, float_eqb (score_of f) (Num q)) (features self data).
Proof.
  intros Hnan. rewrite best_sorted_stable_pairs, zip_scores_features by done.
  exact (filter_fmap_pair score_of (λ x, float_eqb x.1 (Num q)) _).
Qed.

(** The sorted list is ranked, and a failed threshold test fails for every
    later pair: the prefix cut keeps what a filter would keep. *)
Lemma threshold_cut_is_filter (t : Q) :
  no_nan_score (method self) data →
  takewhile (pred self t) (best_sorted self data)
  = filter (λ x, pred self t x) (best_sorted self data).
Proof.
  intros Hnan.
  apply (takewhile_ranked_filter _ (ranks_before (decreasing self))
           (λ x, x.1 ≠ NaN));
    [|by apply best_sorted_no_nan|by apply best_sorted_ranked].
  intros x y _ _. unfold ranks_before, pred.
  destruct x.1, y.1; try done. simpl.
  destruct (decreasing self); rewrite !Qle_bool_iff; intros ? ?;
    eapply Qle_trans; eassumption.
Qed.

Lemma call_ok :
  isinstance_opt (class_var (domain data)) (class_type (method self)) = true →
  SelectBestFeatures_call self data
  = inr (from_table (selected_domain self data) data).
Proof. intros Hc. unfold SelectBestFeatures_call. by rewrite Hc. Qed.

Lemma call_error :
  isinstance_opt (class_var (domain data)) (class_type (method self)) = false →
  SelectBestFeatures_call self data = inl (ValueError (error_message self)).
Proof. intros Hc. unfold SelectBestFeatures_call. by rewrite Hc. Qed.

Lemma call_inr (out : Table) :
  SelectBestFeatures_call self data = inr out →
  out = from_table (selected_domain self data) data.
Proof.
  unfold SelectBestFeatures_call. destruct (negb _); [done|]. congruence.
Qed.
End select_facts.

Lemma string_app_assoc (a b c : string) :
  ((a ++ b) ++ c)%string = (a ++ b ++ c)%string.
Proof.
  induction a as [|x a IH]; [done|].
  change (String x ((a ++ b) ++ c) = String x (a ++ b ++ c))%string.
  by f_equal.
Qed.

Lemma includes_middle (pre s post : string) :
  includes s (pre ++ s ++ post)%string.
Proof. by exists pre, post. Qed.

(** ** SelectBestFeatures: the class variable check *)

Section select_errors.
Context `{ClassVar} (self : SelectBestFeatures) (data : Table).

Local Abbreviation class_var_ok :=
  (isinstance_opt (class_var (domain data)) (class_type (method self))).

Lemma error_message_includes :
  includes (method_type (method self)) (error_message self)
  ∧ includes (kind_repr (class_type (method self))) (error_message self).
Proof.
  unfold error_message. split; [apply includes_middle|].
  exists ("Scoring method " ++ method_type (method self)
            ++ " requires a class variable " ++ "of type ")%string, ".".
  by rewrite !string_app_assoc.
Qed.

(** C2.  When the class variable of the table is not an instance of the
    class required by the scoring method, the call raises the error, whose
    message includes the type of the method and the required class, and no
    table is returned.  The call raises nothing else: any error it raises is
    that one, raised for that reason. *)
Theorem class_mismatch_raises :
  (class_var_ok = false →
     SelectBestFeatures_call self data = inl (ValueError (error_message self))
     ∧ includes (method_type (method self)) (error_message self)
     ∧ includes (kind_repr (class_type (method self))) (error_message self)
     ∧ ∀ out, SelectBestFeatures_call self data ≠ inr out)
  ∧ (∀ e, SelectBestFeatures_call self data = inl e →
       e = ValueError (error_message self) ∧ class_var_ok = false).
Proof.
  split.
  - intros Hc. rewrite (call_error _ _ Hc).
    destruct error_message_includes as [Hm Hk]. by repeat split.
  - intros e. unfold SelectBestFeatures_call.
    destruct class_var_ok; simpl; [done|]. intros [= <-]. done.
Qed.

(** C10.  A table whose domain has no class variable is always rejected,
    whatever the configuration and the attributes. *)
Theorem no_class_var_raises :
  class_var (domain data) = None →
  SelectBestFeatures_call self data = inl (ValueError (error_message self)).
Proof. intros Hnone. apply call_error. by rewrite Hnone. Qed.
End select_errors.

(** ** SelectBestFeatures: what is selected *)

Section select_claims.
Context `{ClassVar} (self : SelectBestFeatures) (data : Table).

Local Abbreviation score_of := (λ f : Var, score (method self) f data).
Local Abbreviation scorable :=
  (λ f : Var, Is_true (isinstance f (feature_type (method self)))).
Local Abbreviation unscorable :=
  (λ f : Var, Is_true (negb (isinstance f (feature_type (method self))))).

Lemma output_attributes (out : Table) :
  SelectBestFeatures_call self data = inr out →
  attributes (domain out) = (best self data).*2 ++ other self data.
Proof. by intros ->%call_inr. Qed.

(** With [k] unset and [threshold] set to a number other than zero, the
    selected pairs are the longest prefix of the sorted list all of whose
    scores meet the threshold: they form a prefix, all meet the threshold,
    and every prefix whose scores all meet the threshold is a prefix of
    them.  The sorted list is the selection followed by a rest that is empty
    or starts with a pair failing the threshold; the whole rest is left out
    of the result. *)
Lemma threshold_only_maximal_prefix (t : Q) :
  k self = None → threshold self = Some t → ¬ (t == 0)%Q →
  best self data `prefix_of` best_sorted self data
  ∧ Forall (λ x, score_meets (decreasing self) t x.1) (best self data)
  ∧ (∀ p, p `prefix_of` best_sorted self data →
          Forall (λ x, score_meets (decreasing self) t x.1) p →
          p `prefix_of` best self data)
  ∧ (∃ rest, best_sorted self data = best self data ++ rest
       ∧ (rest = [] ∨ ∃ x rest', rest = x :: rest'
                                 ∧ ¬ score_meets (decreasing self) t x.1))
  ∧ (∀ out, SelectBestFeatures_call self data = inr out →
            attributes (domain out) = (best self data).*2 ++ other self data).
Proof.
  intros Hk Ht Hnz.
  assert (best self data = takewhile (pred self t) (best_sorted self data))
    as Hbest.
  { unfold best, best_k. rewrite Ht, Hk.
    by rewrite (proj2 (truthy_num_true t) Hnz). }
  rewrite Hbest. repeat split.
  - apply takewhile_prefix.
  - eapply Forall_impl; [apply takewhile_Forall|].
    intros x. apply pred_meets.
  - intros p Hp Hall. apply takewhile_maximal; [done|].
    eapply Forall_impl; [exact Hall|]. intros x. apply pred_meets.
  - destruct (takewhile_split (pred self t) (best_sorted self data))
      as (rest & Hsplit & Hrest).
    exists rest. split; [done|].
    destruct Hrest as [->|(x & rest' & -> & Hx)]; [by left|].
    right. exists x, rest'. split; [done|].
    rewrite <- pred_meets. congruence.
  - intros out Hout. rewrite <- Hbest. by apply output_attributes.
Qed.

(** C3.  When no scorable attribute has the score NaN, features
    with equal scores keep their original order, whichever way the scores
    are sorted.  For every score [q], the features of the sorted list scored
    [q] are, in order, the scorable attributes of the table scored [q]; two
    scorable attributes with equal scores, the first before the second in
    the attribute list, stand in that order in the sorted list; the selected
    features scored [q] are an initial part of the scorable attributes
    scored [q], two selected pairs with equal scores stand in the order of
    their attributes, and the result lists the selected features in that
    order, followed by the other attributes. *)
Theorem equal_scores_keep_attribute_order :
  no_nan_score (method self) data →
  (∀ q, (filter (λ x, float_eqb x.1 (Num q)) (best_sorted self data)).*2
        = filter (λ f, float_eqb (score_of f) (Num q))
                 (filter scorable (attributes (domain data))))
  ∧ (∀ f g, [f; g] `sublist_of` attributes (domain data) →
            isinstance f (feature_type (method self)) = true →
            isinstance g (feature_type (method self)) = true →
            float_eqb (score_of f) (score_of g) = true →
            [(score_of f, f); (score_of g, g)]
              `sublist_of` best_sorted self data)
  ∧ (∀ q, (filter (λ x, float_eqb x.1 (Num q)) (best self data)).*2
          `prefix_of` filter (λ f, float_eqb (score_of f) (Num q))
                             (filter scorable (attributes (domain data))))
  ∧ (∀ x y, float_eqb x.1 y.1 = true → [x; y] `sublist_of` best self data →
            [x.2; y.2] `sublist_of` attributes (domain data))
  ∧ (∀ out, SelectBestFeatures_call self data = inr out →
            attributes (domain out)
            = (best self data).*2
              ++ filter unscorable (attributes (domain data))).
Proof.
  intros Hnan. split; [intros q; by apply best_sorted_stable|].
  split; [|split; [|split]].
  - intros f g Hfg Hf Hg Heq.
    destruct (score_of f) as [|a] eqn:Hsf; [done|].
    destruct (score_of g) as [|b] eqn:Hsg; [done|].
    assert ([f; g] `sublist_of` features self data) as Hsub.
    { apply (filter_sublist_mono scorable) in Hfg.
      rewrite !filter_cons in Hfg. rewrite Hf, Hg in Hfg. exact Hfg. }
    apply (fmap_sublist (λ f, (score_of f, f))) in Hsub.
    rewrite <- zip_scores_features in Hsub.
    apply (filter_sublist_mono (λ x : float * Var, float_eqb x.1 (Num b)))
      in Hsub.
    rewrite <- best_sorted_stable_pairs in Hsub by done.
    etrans; [|apply (sublist_filter (λ x, float_eqb x.1 (Num b)))].
    etrans; [|exact Hsub]. rewrite !fmap_cons, !filter_cons. simpl.
    rewrite Hsf, Hsg. simpl.
    rewrite (proj2 (Qeq_bool_iff b b) (Qeq_refl b)). simpl in Heq.
    rewrite Heq. done.
  - intros q. pose proof (best_sorted_stable self data q Hnan) as Hst.
    unfold features in Hst. rewrite <- Hst.
    apply prefix_fmap, prefix_filter_mono, best_prefix.
  - intros x y Heq Hxy.
    destruct x.1 as [|a] eqn:Hx; [done|].
    destruct y.1 as [|b] eqn:Hy; [done|]. simpl in Heq.
    etrans; [|apply features_sublist].
    rewrite <- (list_fmap_id (features self data)).
    rewrite (list_fmap_compose (λ f, (score_of f, f)) snd).
    rewrite <- zip_scores_features.
    change [x.2; y.2] with ([x; y].*2). apply fmap_sublist.
    etrans; [|apply (sublist_filter (λ x, float_eqb x.1 (Num b)))].
    rewrite <- best_sorted_stable_pairs by done.
    etrans; [|apply filter_sublist_mono, prefix_sublist, best_prefix].
    etrans; [|apply (filter_sublist_mono
                       (λ x : float * Var, float_eqb x.1 (Num b))), Hxy].
    rewrite !filter_cons, Hx, Hy. simpl.
    rewrite (proj2 (Qeq_bool_iff b b) (Qeq_refl b)), Heq. done.
  - intros out. apply output_attributes.
Qed.

(** C4.  With [k] set to a positive integer and [threshold] unset,
    the selection is the first [k] pairs of the sorted list, so it counts
    [min k (number of scorable attributes of the table)] features.  When no
    scorable attribute has the score NaN, the sorted list holds every
    scorable attribute of the table with its score, ranked (highest first
    when [decreasing], lowest first otherwise), with features of equal
    score in their original order, and every selected pair ranks before
    every pair that is left out.  The result lists the selected features
    and then the other attributes. *)
Theorem k_only_top_k (n : Z) :
  k self = Some n → (0 < n)%Z → threshold self = None →
  best self data = take (Z.to_nat n) (best_sorted self data)
  ∧ length (best self data).*2
    = Z.to_nat n `min` length (filter scorable (attributes (domain data)))
  ∧ best_sorted self data
    ≡ₚ (λ f, (score_of f, f)) <$> filter scorable (attributes (domain data))
  ∧ (∀ out, SelectBestFeatures_call self data = inr out →
            attributes (domain out)
            = (best self data).*2
              ++ filter unscorable (attributes (domain data)))
  ∧ (no_nan_score (method self) data →
     StronglySorted (ranks_before (decreasing self)) (best_sorted self data)
     ∧ (∀ x y, x ∈ best self data →
               y ∈ drop (Z.to_nat n) (best_sorted self data) →
               ranks_before (decreasing self) x y)
     ∧ (∀ q, (filter (λ x, float_eqb x.1 (Num q)) (best_sorted self data)).*2
             = filter (λ f, float_eqb (score_of f) (Num q))
                      (filter scorable (attributes (domain data))))).
Proof.
  intros Hk Hn Ht.
  assert (best self data = take (Z.to_nat n) (best_sorted self data))
    as Hbest.
  { unfold best, best_k. rewrite Ht, Hk, (truthy_int_pos n Hn).
    apply slice_to_pos. lia. }
  split; [done|]. split; [|split; [|split]].
  - rewrite length_fmap, Hbest, length_take, best_sorted_length. done.
  - pose proof (best_sorted_perm self data) as Hperm.
    rewrite (zip_scores_features self data) in Hperm. exact Hperm.
  - intros out. apply output_attributes.
  - intros Hnan. pose proof (best_sorted_ranked self data Hnan) as Hs.
    split; [done|]. split; [|intros q; by apply best_sorted_stable].
    intros x y Hx Hy. rewrite Hbest in Hx.
    rewrite <- (take_drop (Z.to_nat n) (best_sorted self data)) in Hs.
    by eapply StronglySorted_app_1_elem_of.
Qed.

(** With [k] set to a positive integer and [threshold] set, at most [k]
    scored features are selected; when the threshold is not zero, the
    selection is the threshold prefix cut ([takewhile]) of the first [k]
    pairs of the sorted list, all of whose scores meet the threshold. *)
Lemma k_then_threshold (n : Z) (t : Q) :
  k self = Some n → (0 < n)%Z → threshold self = Some t →
  length (best self data).*2 ≤ Z.to_nat n
  ∧ (¬ (t == 0)%Q →
     best self data
     = takewhile (pred self t) (take (Z.to_nat n) (best_sorted self data))
     ∧ Forall (λ x, score_meets (decreasing self) t x.1) (best self data)).
Proof.
  intros Hk Hn Ht.
  assert (best_k self data = take (Z.to_nat n) (best_sorted self data))
    as Hbk.
  { unfold best_k. rewrite Hk, (truthy_int_pos n Hn). apply slice_to_pos. lia. }
  split.
  - rewrite length_fmap.
    etrans; [apply prefix_length, best_prefix_k|].
    rewrite Hbk, length_take. lia.
  - intros Hnz.
    assert (best self data = takewhile (pred self t) (best_k self data))
      as Hbest.
    { unfold best. by rewrite Ht, (proj2 (truthy_num_true t) Hnz). }
    rewrite Hbest, Hbk. split; [done|].
    eapply Forall_impl; [apply takewhile_Forall|].
    intros x. apply pred_meets.
Qed.

(** C9.  The two steps are guarded by the truth value of [k] and of
    [threshold].  With [k = 0] nothing is cut off the sorted list (and with
    no threshold every sorted pair is selected); with a threshold equal to
    zero no prefix cut is made, so that with [k] unset every scorable
    attribute is in the result, whatever its score. *)
Theorem falsy_k_and_threshold_skipped :
  (k self = Some 0%Z →
     best_k self data = best_sorted self data
     ∧ (threshold self = None → best self data = best_sorted self data))
  ∧ (∀ t, threshold self = Some t → (t == 0)%Q →
       best self data = best_k self data
       ∧ (k self = None →
          best self data = best_sorted self data
          ∧ ∀ out f, SelectBestFeatures_call self data = inr out →
                     f ∈ features self data → f ∈ attributes (domain out))).
Proof.
  split.
  - intros Hk. unfold best, best_k. rewrite Hk. simpl.
    split; [done|]. by intros ->.
  - intros t Ht Hz.
    assert (best self data = best_k self data) as Hbest.
    { unfold best. rewrite Ht. unfold truthy_num.
      by rewrite (proj2 (Qeq_bool_iff t 0) Hz). }
    split; [done|]. intros Hk.
    assert (best self data = best_sorted self data) as Hall.
    { rewrite Hbest. unfold best_k. by rewrite Hk. }
    split; [done|]. intros out f Hout Hf.
    rewrite (output_attributes out Hout), Hall.
    apply elem_of_app. left. by rewrite best_sorted_features.
Qed.
End select_claims.

(** ** RemoveNaNColumns *)

Section nan_facts.

Lemma np_all_axis0_length (n : nat) (b : list (list bool)) :
  Forall (λ r, length r = n) b → length (np_all_axis0 n b) = n.
Proof.
  unfold np_all_axis0. induction 1 as [|r b Hr _ IH]; simpl.
  - apply length_replicate.
  - rewrite length_zip_with, IH, Hr. lia.
Qed.

Lemma column_all_nan_cons (r : list float) (rs : list (list float)) (j : nat) :
  column_all_nan (r :: rs) j
  ↔ isnan <$> r !! j = Some true ∧ column_all_nan rs j.
Proof. unfold column_all_nan. by rewrite Forall_cons. Qed.

Lemma nan_mask_lookup (n : nat) (rs : list (list float)) (j : nat) :
  Forall (λ r, length r = n) rs → j < n →
  np_all_axis0 n ((λ r : list float, isnan <$> r) <$> rs) !! j
  = Some (bool_decide (column_all_nan rs j)).
Proof.
  intros Hrs Hj. unfold np_all_axis0.
  induction Hrs as [|r rs Hr _ IH].
  - rewrite fmap_nil. cbn [foldr]. by rewrite lookup_replicate_2.
  - rewrite fmap_cons. cbn [foldr].
    rewrite lookup_zip_with, list_lookup_fmap, IH.
    destruct (lookup_lt_is_Some_2 r j) as [v Hv]; [lia|].
    rewrite Hv. simpl. f_equal.
    rewrite (bool_decide_ext _ _ (column_all_nan_cons r rs j)), Hv. simpl.
    destruct (isnan v); simpl; [|done].
    apply bool_decide_ext. tauto.
Qed.

Lemma nan_mask (n : nat) (rs : list (list float)) :
  Forall (λ r, length r = n) rs →
  np_all_axis0 n ((λ r : list float, isnan <$> r) <$> rs)
  = (λ j, bool_decide (column_all_nan rs j)) <$> seq 0 n.
Proof.
  intros Hrs. apply list_eq. intros j.
  destruct (decide (j < n)) as [Hj|Hj].
  - rewrite nan_mask_lookup by done.
    rewrite list_lookup_fmap, lookup_seq_lt by done. done.
  - rewrite !(proj2 (lookup_ge_None _ _)); [done| |].
    + rewrite length_fmap, length_seq. lia.
    + rewrite np_all_axis0_length; [lia|].
      apply Forall_fmap. eapply Forall_impl; [exact Hrs|].
      intros r Hr. simpl. by rewrite length_fmap.
Qed.

Lemma column_has_value (n : nat) (rs : list (list float)) (j : nat) :
  Forall (λ r, length r = n) rs → j < n →
  ¬ column_all_nan rs j ↔ ∃ r q, r ∈ rs ∧ r !! j = Some (Num q).
Proof.
  intros Hrs Hj. unfold column_all_nan. split.
  - intros Hnot. apply not_Forall_Exists in Hnot; [|apply _].
    apply Exists_exists in Hnot as (r & Hin & Hr).
    rewrite Forall_forall in Hrs.
    destruct (lookup_lt_is_Some_2 r j) as [v Hv]; [rewrite (Hrs r Hin); lia|].
    simpl in Hr. rewrite Hv in Hr. destruct v as [|q]; [done|]. by exists r, q.
  - intros (r & q & Hin & Hr) Hall. rewrite Forall_forall in Hall.
    specialize (Hall r Hin). by rewrite Hr in Hall.
Qed.
End nan_facts.

Section remove_claims.
Context `{Kinds} (data : Table).

Lemma nan_col_all_missing :
  well_formed data →
  nan_col data
  = (λ j, bool_decide (all_missing data j))
      <$> seq 0 (length (attributes (domain data))).
Proof.
  intros [Hshape Hcols]. unfold nan_col, np_isnan, all_missing.
  rewrite <- Hcols. by apply nan_mask.
Qed.

Lemma att_sublist : att data `sublist_of` attributes (domain data).
Proof.
  unfold att. etrans; [apply fmap_sublist, sublist_filter|].
  apply fst_zip_sublist.
Qed.

(** C7.  On a table whose array has one column per attribute, an attribute
    is removed exactly when every value of its column is missing: the mask
    [nan_col] marks the columns all of whose values are missing, a column is
    not marked exactly when some row holds a number in it, and the
    attributes of the result are those at the positions that are not marked,
    in their order.  Class and meta variables are kept as they are. *)
Theorem remove_nan_columns_iff_all_missing :
  well_formed data →
  (∀ j, j < length (attributes (domain data)) →
        nan_col data !! j = Some (bool_decide (all_missing data j)))
  ∧ (∀ j, j < length (attributes (domain data)) →
          ¬ all_missing data j
          ↔ ∃ r q, r ∈ rows (X data) ∧ r !! j = Some (Num q))
  ∧ attributes (domain (RemoveNaNColumns_call data))
    = (filter (λ p : nat * Var, ¬ all_missing data p.1)
              (zip (seq 0 (length (attributes (domain data))))
                   (attributes (domain data)))).*2
  ∧ class_vars (domain (RemoveNaNColumns_call data))
    = class_vars (domain data)
  ∧ metas (domain (RemoveNaNColumns_call data)) = metas (domain data).
Proof.
  intros Hwf. pose proof (nan_col_all_missing Hwf) as Hmask.
  destruct Hwf as [Hshape Hcols]. repeat split.
  - intros j Hj. rewrite Hmask, list_lookup_fmap, lookup_seq_lt by done. done.
  - eapply column_has_value; [exact Hshape|lia].
  - eapply column_has_value; [exact Hshape|lia].
  - simpl. unfold att. rewrite Hmask.
    apply (filter_zip_mask (all_missing data)).
Qed.
End remove_claims.

(** ** The domain of the result *)

Import Example.

Section domain_claims.
Context `{ClassVar} (self : SelectBestFeatures) (data : Table).

(** C8.  The attributes of the result of [SelectBestFeatures] are a
    reordered subset of the attributes of the table (a sub-multiset, up to
    order), those of the result of [RemoveNaNColumns] are a subsequence of
    them (a subset in the original order); both results have the class
    variables and the meta variables of the table. *)
Theorem output_domain_subset :
  (∀ out, SelectBestFeatures_call self data = inr out →
     attributes (domain out) ⊆+ attributes (domain data)
     ∧ class_vars (domain out) = class_vars (domain data)
     ∧ metas (domain out) = metas (domain data))
  ∧ (attributes (domain (RemoveNaNColumns_call data))
       `sublist_of` attributes (domain data)
     ∧ class_vars (domain (RemoveNaNColumns_call data))
       = class_vars (domain data)
     ∧ metas (domain (RemoveNaNColumns_call data)) = metas (domain data)).
Proof.
  split.
  - intros out ->%call_inr. simpl. repeat split.
    rewrite <- (features_other_perm self data).
    apply submseteq_app; [apply best_features | done].
  - repeat split. apply att_sublist.
Qed.
End domain_claims.


(** C6.  The attribute list of the result is the selected scored features,
    in the order of the sorted list, followed by the attributes of the table
    that are not instances of the feature class of the method, in their
    original order.  The selected features head the sorted list of the
    scorable attributes of the table with their scores (and are ranked, when
    no score is NaN).  On the table with attributes [A] (score 0.9), [B]
    (score 0.5) and [C] (of another class), with [k = 1] and decreasing
    order, the result has the attributes [A; C]; with the defaults of the
    constructor it has the attributes [A; B; C]. *)
Theorem output_selected_then_other :
  (∀ `{ClassVar} (self : SelectBestFeatures) (data out : Table),
     SelectBestFeatures_call self data = inr out →
     attributes (domain out)
     = (best self data).*2
       ++ filter (λ f, negb (isinstance f (feature_type (method self))))
                 (attributes (domain data))
     ∧ best self data
       `prefix_of`
         sorted fst (decreasing self)
           ((λ f, (score (method self) f data, f))
              <$> filter (λ f, isinstance f (feature_type (method self)))
                         (attributes (domain data)))
     ∧ (best self data).*2
       ⊆+ filter (λ f, isinstance f (feature_type (method self)))
                 (attributes (domain data))
     ∧ filter (λ f, negb (isinstance f (feature_type (method self))))
              (attributes (domain data))
       `sublist_of` attributes (domain data)
     ∧ (no_nan_score (method self) data →
        StronglySorted (ranks_before (decreasing self)) (best self data)))
  ∧ (attributes (domain table) = [A; B; C]
     ∧ score (method top1) A table = Num (9 # 10)
     ∧ score (method top1) B table = Num (5 # 10)
     ∧ score (method top1) C table = Num (2 # 10)
     ∧ isinstance C (feature_type (method top1)) = false
     ∧ k top1 = Some 1%Z ∧ decreasing top1 = true
     ∧ (∃ out, SelectBestFeatures_call top1 table = inr out
               ∧ attributes (domain out) = [A; C])
     ∧ (∃ out, SelectBestFeatures_call (SelectBestFeatures_init (method top1))
                 table = inr out
               ∧ attributes (domain out) = [A; B; C])).
Proof.
  split.
  - intros ? ? self data out Hout. split; [by apply output_attributes|].
    split; [|split; [|split]].
    + pose proof (best_prefix self data) as Hp. unfold best_sorted in Hp.
      by rewrite zip_scores_features in Hp.
    + apply best_features.
    + apply other_sublist.
    + intros Hnan. eapply StronglySorted_prefix; [apply best_prefix|].
      by apply best_sorted_ranked.
  - repeat split; by eexists.
Qed.

(** ** The properties on the example tables *)

Lemma scorer_no_nan (a b c : Q) (data : Table) :
  no_nan_score (scorer a b c) data.
Proof.
  intros f _ _. simpl.
  destruct (String.eqb (name f) "A"); [done|].
  by destruct (String.eqb (name f) "B").
Qed.

(** C1.  The threshold 0 is given, with scores 1/2 and -1/2, decreasing
    order and no [k]: [B], whose score -1/2 does not meet the threshold, is
    selected and is in the result, where the longest prefix of the sorted
    list with scores at least 0 is the pair of [A] alone. *)
Theorem threshold_zero_keeps_failing_scores :
  k (zero_threshold None) = None
  ∧ threshold (zero_threshold None) = Some 0%Q
  ∧ decreasing (zero_threshold None) = true
  ∧ best_sorted (zero_threshold None) table
    = [(Num (1 # 2), A); (Num (- 1 # 2), B)]
  ∧ takewhile (pred (zero_threshold None) 0%Q)
              (best_sorted (zero_threshold None) table)
    = [(Num (1 # 2), A)]
  ∧ best (zero_threshold None) table
    = [(Num (1 # 2), A); (Num (- 1 # 2), B)]
  ∧ best (zero_threshold None) table
    ≠ takewhile (pred (zero_threshold None) 0%Q)
                (best_sorted (zero_threshold None) table)
  ∧ ¬ Forall (λ x, score_meets true 0%Q x.1)
             (best (zero_threshold None) table)
  ∧ ∃ out, SelectBestFeatures_call (zero_threshold None) table = inr out
           ∧ attributes (domain out) = [A; B; C].
Proof.
  repeat split; [| |by eexists].
  - intros Heq. discriminate Heq.
  - intros [_ [Hb _]%Forall_cons]%Forall_cons.
    unfold score_meets, meets, Qle in Hb. simpl in Hb. lia.
Qed.

Lemma threshold_only_maximal_prefix_example :
  k above_06 = None
  ∧ threshold above_06 = Some (6 # 10)%Q
  ∧ ¬ (6 # 10 == 0)%Q
  ∧ best above_06 table `prefix_of` best_sorted above_06 table
  ∧ Forall (λ x, score_meets (decreasing above_06) (6 # 10)%Q x.1)
           (best above_06 table).
Proof.
  assert (¬ (6 # 10 == 0)%Q) as Hnz by (intros Heq; discriminate Heq).
  destruct (threshold_only_maximal_prefix above_06 table (6 # 10)%Q
              eq_refl eq_refl Hnz) as (Hprefix & Hall & _).
  exact (conj eq_refl (conj eq_refl (conj Hnz (conj Hprefix Hall)))).
Defined.

Lemma class_mismatch_raises_witness :
  isinstance_opt (class_var (domain table))
                 (class_type (method regression_top1)) = false
  ∧ SelectBestFeatures_call regression_top1 table
    = inl (ValueError
             "Scoring method <class 'RegressionScorer'> requires a class variable of type ContinuousVariable.").
Proof.
  split; [reflexivity|].
  apply (proj1 (class_mismatch_raises regression_top1 table)). reflexivity.
Defined.

Lemma no_class_var_raises_witness :
  class_var (domain table_no_class) = None
  ∧ SelectBestFeatures_call top1 table_no_class
    = inl (ValueError (error_message top1)).
Proof.
  split; [reflexivity|].
  apply (no_class_var_raises top1 table_no_class). reflexivity.
Defined.

(** Scores nan, nan, 4, nan, 1, 0.5, 1, sorted by increasing score: [T5]
    stands before [T7] in the table and both score 1, yet [T7] stands before
    [T5] in the sorted list and in the result. *)
Lemma nan_scores_break_tie_order :
  attributes (domain table_seven)
  = (λ s, mk_Var s ContinuousVariable)
      <$> ["T1"; "T2"; "T3"; "T4"; "T5"; "T6"; "T7"]
  ∧ (λ f, score (method increasing_with_nan) f table_seven)
      <$> attributes (domain table_seven)
    = [NaN; NaN; Num 4; NaN; Num 1; Num (1 # 2); Num 1]
  ∧ decreasing increasing_with_nan = false
  ∧ [T5; T7] `sublist_of` attributes (domain table_seven)
  ∧ isinstance T5 (feature_type (method increasing_with_nan)) = true
  ∧ isinstance T7 (feature_type (method increasing_with_nan)) = true
  ∧ float_eqb (score (method increasing_with_nan) T5 table_seven)
              (score (method increasing_with_nan) T7 table_seven) = true
  ∧ (best_sorted increasing_with_nan table_seven).*2
    = (λ s, mk_Var s ContinuousVariable)
        <$> ["T1"; "T2"; "T6"; "T7"; "T3"; "T4"; "T5"]
  ∧ ¬ [T5; T7] `sublist_of` (best_sorted increasing_with_nan table_seven).*2
  ∧ ∃ out, SelectBestFeatures_call increasing_with_nan table_seven = inr out
           ∧ attributes (domain out)
             = (λ s, mk_Var s ContinuousVariable)
                 <$> ["T1"; "T2"; "T6"; "T7"; "T3"; "T4"; "T5"]
           ∧ ¬ [T5; T7] `sublist_of` attributes (domain out).
Proof.
  assert (¬ [T5; T7] `sublist_of`
            (best_sorted increasing_with_nan table_seven).*2) as Hnot.
  { intros Hsub.
    apply (filter_sublist_mono (λ f, f = T5 ∨ f = T7)) in Hsub.
    vm_compute in Hsub.
    repeat match goal with
           | Hs : sublist _ _ |- _ => inversion Hs; clear Hs; subst
           end. }
  split; [reflexivity|]. split; [reflexivity|]. split; [reflexivity|].
  split; [vm_compute; repeat constructor|].
  split; [reflexivity|]. split; [reflexivity|]. split; [reflexivity|].
  split; [reflexivity|]. split; [exact Hnot|].
  eexists. split; [reflexivity|]. split; [reflexivity|]. exact Hnot.
Qed.

Lemma equal_scores_keep_attribute_order_witness :
  no_nan_score (method (tied true)) table
  ∧ [A; B] `sublist_of` attributes (domain table)
  ∧ float_eqb (score (method (tied true)) A table)
              (score (method (tied true)) B table) = true
  ∧ [(Num (5 # 10), A); (Num (5 # 10), B)]
      `sublist_of` best_sorted (tied true) table
  ∧ SelectBestFeatures_call (tied true) table
    = inr (from_table (selected_domain (tied true) table) table)
  ∧ attributes (selected_domain (tied true) table) = [A; B; C]
  ∧ attributes (selected_domain (tied false) table) = [A; B; C].
Proof.
  assert (no_nan_score (method (tied true)) table) as Hnan
    by apply scorer_no_nan.
  assert ([A; B] `sublist_of` attributes (domain table)) as Hsub.
  { apply (sublist_inserts_r [C] [A; B] [A; B]). reflexivity. }
  split; [exact Hnan|]. split; [exact Hsub|]. split; [reflexivity|].
  split; [|split; [reflexivity|split; reflexivity]].
  exact (proj1 (proj2 (equal_scores_keep_attribute_order (tied true) table
                         Hnan))
           A B Hsub eq_refl eq_refl eq_refl).
Defined.

(** Scores 0.1, nan, 0.9 with [k = 1] and decreasing order: the feature
    scored 0.1 is selected, the feature scored 0.9 is left out. *)
Lemma nan_score_hides_top_score :
  attributes (domain table_three) = [U1; U2; U3]
  ∧ (λ f, score (method top1_with_nan) f table_three)
      <$> attributes (domain table_three)
    = [Num (1 # 10); NaN; Num (9 # 10)]
  ∧ k top1_with_nan = Some 1%Z ∧ threshold top1_with_nan = None
  ∧ decreasing top1_with_nan = true
  ∧ best_sorted top1_with_nan table_three
    = [(Num (1 # 10), U1); (NaN, U2); (Num (9 # 10), U3)]
  ∧ best top1_with_nan table_three = [(Num (1 # 10), U1)]
  ∧ ¬ ranks_before true (Num (1 # 10), U1) (Num (9 # 10), U3)
  ∧ ∃ out, SelectBestFeatures_call top1_with_nan table_three = inr out
           ∧ attributes (domain out) = [U1].
Proof.
  repeat split; [|by eexists].
  unfold ranks_before, Qle. simpl. lia.
Qed.

Lemma k_only_top_k_witness :
  k top1 = Some 1%Z ∧ (0 < 1)%Z ∧ threshold top1 = None
  ∧ no_nan_score (method top1) table
  ∧ best top1 table = take 1 (best_sorted top1 table)
  ∧ StronglySorted (ranks_before (decreasing top1)) (best_sorted top1 table)
  ∧ best top1 table = [(Num (9 # 10), A)]
  ∧ SelectBestFeatures_call top1 table
    = inr (from_table (selected_domain top1 table) table)
  ∧ attributes (selected_domain top1 table) = [A; C].
Proof.
  assert (0 < 1)%Z as Hpos by reflexivity.
  assert (no_nan_score (method top1) table) as Hnan by apply scorer_no_nan.
  destruct (k_only_top_k top1 table 1%Z eq_refl Hpos eq_refl)
    as (Hbest & _ & _ & _ & Hranked).
  destruct (Hranked Hnan) as (Hsorted & _).
  exact (conj eq_refl (conj Hpos (conj eq_refl (conj Hnan (conj Hbest
           (conj Hsorted (conj eq_refl (conj eq_refl eq_refl)))))))).
Defined.

(** C5.  [k = 2] and the threshold 0 are given, with scores 1/2 and -1/2:
    the prefix cut of the first two sorted pairs is the pair of [A] alone,
    yet both pairs are selected, and [B], whose score does not meet the
    threshold, is in the result. *)
Theorem k_with_threshold_zero_no_cut :
  k (zero_threshold (Some 2%Z)) = Some 2%Z
  ∧ threshold (zero_threshold (Some 2%Z)) = Some 0%Q
  ∧ decreasing (zero_threshold (Some 2%Z)) = true
  ∧ takewhile (pred (zero_threshold (Some 2%Z)) 0%Q)
              (take 2 (best_sorted (zero_threshold (Some 2%Z)) table))
    = [(Num (1 # 2), A)]
  ∧ best (zero_threshold (Some 2%Z)) table
    = [(Num (1 # 2), A); (Num (- 1 # 2), B)]
  ∧ best (zero_threshold (Some 2%Z)) table
    ≠ takewhile (pred (zero_threshold (Some 2%Z)) 0%Q)
                (take 2 (best_sorted (zero_threshold (Some 2%Z)) table))
  ∧ ¬ score_meets true 0%Q (score (method (zero_threshold (Some 2%Z))) B table)
  ∧ ∃ out, SelectBestFeatures_call (zero_threshold (Some 2%Z)) table = inr out
           ∧ attributes (domain out) = [A; B; C].
Proof.
  repeat split; [| |by eexists].
  - intros Heq. discriminate Heq.
  - unfold score_meets, meets, Qle. simpl. lia.
Qed.

Lemma k_then_threshold_example :
  k top2_above_06 = Some 2%Z ∧ (0 < 2)%Z
  ∧ threshold top2_above_06 = Some (6 # 10)%Q
  ∧ ¬ (6 # 10 == 0)%Q
  ∧ length (best top2_above_06 table).*2 ≤ 2
  ∧ best top2_above_06 table
    = takewhile (pred top2_above_06 (6 # 10)%Q)
                (take 2 (best_sorted top2_above_06 table)).
Proof.
  assert (0 < 2)%Z as Hpos by reflexivity.
  assert (¬ (6 # 10 == 0)%Q) as Hnz by (intros Heq; discriminate Heq).
  destruct (k_then_threshold top2_above_06 table 2%Z (6 # 10)%Q
              eq_refl Hpos eq_refl) as [Hlen Hcut].
  destruct (Hcut Hnz) as [Hbest _].
  exact (conj eq_refl (conj Hpos (conj eq_refl (conj Hnz (conj Hlen Hbest))))).
Defined.

Lemma falsy_k_and_threshold_skipped_witness :
  (k zero_k = Some 0%Z ∧ best zero_k table = best_sorted zero_k table)
  ∧ (threshold (zero_threshold None) = Some 0%Q
     ∧ score (method (zero_threshold None)) B table = Num (- 1 # 2)
     ∧ B ∈ features (zero_threshold None) table
     ∧ ∀ out, SelectBestFeatures_call (zero_threshold None) table = inr out →
              B ∈ attributes (domain out)).
Proof.
  assert (0 == 0)%Q as Hz by reflexivity.
  assert (B ∈ features (zero_threshold None) table) as HB.
  { apply elem_of_cons. right. apply elem_of_cons. by left. }
  split.
  - split; [reflexivity|].
    exact (proj2 (proj1 (falsy_k_and_threshold_skipped zero_k table) eq_refl)
             eq_refl).
  - split; [reflexivity|]. split; [reflexivity|]. split; [exact HB|].
    intros out Hout.
    exact (proj2 (proj2 (proj2 (falsy_k_and_threshold_skipped
                                  (zero_threshold None) table)
                           0%Q eq_refl Hz) eq_refl)
             out B Hout HB).
Defined.

Lemma remove_nan_columns_iff_all_missing_witness :
  well_formed table_nan
  ∧ attributes (domain (RemoveNaNColumns_call table_nan))
    = (filter (λ p : nat * Var, ¬ all_missing table_nan p.1)
              (zip (seq 0 2) [X1; X2])).*2
  ∧ attributes (domain (RemoveNaNColumns_call table_nan)) = [X2].
Proof.
  assert (well_formed table_nan) as Hwf.
  { split; [|reflexivity]. repeat constructor. }
  split; [exact Hwf|]. split; [|reflexivity].
  exact (proj1 (proj2 (proj2
           (remove_nan_columns_iff_all_missing table_nan Hwf)))).
Defined.

Lemma output_domain_subset_witness :
  SelectBestFeatures_call top1 table
  = inr (from_table (selected_domain top1 table) table)
  ∧ attributes (selected_domain top1 table) ⊆+ attributes (domain table).
Proof.
  split; [reflexivity|].
  exact (proj1 (proj1 (output_domain_subset top1 table) _ eq_refl)).
Defined.

Lemma output_selected_then_other_witness :
  SelectBestFeatures_call above_06 table
  = inr (from_table (selected_domain above_06 table) table)
  ∧ attributes (selected_domain above_06 table)
    = (best above_06 table).*2
      ++ filter (λ f, negb (isinstance f (feature_type (method above_06))))
                (attributes (domain table))
  ∧ attributes (selected_domain above_06 table) = [A; C].
Proof.
  split; [reflexivity|]. split; [|reflexivity].
  exact (proj1 (proj1 output_selected_then_other _ _ above_06 table _ eq_refl)).
Defined.

(** * Further properties of the selection *)

Section cut_facts.
Context {A : Type}.

Lemma takewhile_take (p : A → bool) (n : nat) (l : list A) :
  takewhile p (take n l) = take n (takewhile p l).
Proof.
  revert n. induction l as [|x l IH]; intros [|n]; simpl; try done.
  destruct (p x); [|done]. simpl. by rewrite IH.
Qed.

Lemma takewhile_prefix_mono (p : A → bool) (l1 l2 : list A) :
  l1 `prefix_of` l2 → takewhile p l1 `prefix_of` takewhile p l2.
Proof.
  intros [k' ->]. induction l1 as [|x l1 IH]; simpl; [apply prefix_nil|].
  destruct (p x); [by apply prefix_cons | done].
Qed.

Lemma takewhile_weaken (p p' : A → bool) (l : list A) :
  (∀ x, p' x = true → p x = true) →
  takewhile p' l `prefix_of` takewhile p l.
Proof.
  intros Himp. induction l as [|x l IH]; simpl; [done|].
  destruct (p' x) eqn:Hp'; [|apply prefix_nil].
  rewrite (Himp x Hp'). by apply prefix_cons.
Qed.

Lemma takewhile_fmap {B : Type} (g : A → B) (p : B → bool) (l : list A) :
  takewhile p (g <$> l) = g <$> takewhile (λ x, p (g x)) l.
Proof.
  induction l as [|x l IH]; [done|]. rewrite fmap_cons. simpl.
  destruct (p (g x)); [|done]. by rewrite fmap_cons, IH.
Qed.

Lemma takewhile_ext (p p' : A → bool) (l : list A) :
  (∀ x, p x = p' x) → takewhile p l = takewhile p' l.
Proof.
  intros Hext. induction l as [|x l IH]; simpl; [done|].
  by rewrite Hext, IH.
Qed.

Lemma slice_to_fmap {B : Type} (g : A → B) (n : Z) (l : list A) :
  slice_to n (g <$> l) = g <$> slice_to n l.
Proof.
  unfold slice_to. rewrite length_fmap. by destruct (0 <=? n)%Z; rewrite fmap_take.
Qed.

Lemma submseteq_NoDup (l1 l2 : list A) : l1 ⊆+ l2 → NoDup l2 → NoDup l1.
Proof.
  intros [k' Hk]%submseteq_Permutation Hnd. rewrite Hk in Hnd.
  by apply NoDup_app in Hnd as [? _].
Qed.

Lemma filter_empty_complement (f : A → bool) (l : list A) :
  filter (λ x, f x) l = [] → filter (λ x, negb (f x)) l = l.
Proof.
  induction l as [|x l IH]; [done|]. rewrite !filter_cons.
  destruct (f x); simpl.
  - destruct (decide (Is_true true)) as [_|[]]; done.
  - destruct (decide (Is_true false)) as [[]|_].
    destruct (decide (Is_true true)) as [_|[]]; [|done].
    intros Hl. by rewrite (IH Hl).
Qed.
End cut_facts.

Section more_select.
Context `{ClassVar} (self : SelectBestFeatures) (data : Table).

Local Abbreviation score_of := (λ f : Var, score (method self) f data).

Lemma best_k_off : k_off self → best_k self data = best_sorted self data.
Proof. unfold best_k. by intros [->| ->]. Qed.

Lemma best_threshold_off :
  threshold_off self → best self data = best_k self data.
Proof.
  unfold best. intros [->|(t & -> & Ht)]; [done|].
  unfold truthy_num. by rewrite (proj2 (Qeq_bool_iff t 0) Ht).
Qed.

Lemma best_k_pos (n : Z) :
  k self = Some n → (0 < n)%Z →
  best_k self data = take (Z.to_nat n) (best_sorted self data).
Proof.
  intros Hk Hn. unfold best_k. rewrite Hk, (truthy_int_pos n Hn).
  apply slice_to_pos. lia.
Qed.

Lemma best_threshold_on (t : Q) :
  threshold self = Some t → ¬ (t == 0)%Q →
  best self data = takewhile (pred self t) (best_k self data).
Proof.
  intros Ht Hnz. unfold best. by rewrite Ht, (proj2 (truthy_num_true t) Hnz).
Qed.

Lemma elem_of_best_sorted (x : float * Var) :
  x ∈ best_sorted self data
  ↔ ∃ f, x = (score_of f, f) ∧ f ∈ features self data.
Proof.
  rewrite best_sorted_perm, zip_scores_features. apply list_elem_of_fmap.
Qed.

(** X1.  When no scorable attribute has the score NaN, with [k] off and a
    threshold other than zero, the selection is the sorted list filtered by
    the threshold: a scorable attribute of the table is selected exactly
    when its score meets the threshold.  (On the sorted list the prefix cut
    then loses nothing that a filter would keep.) *)
Theorem threshold_selects_all_meeting (t : Q) :
  no_nan_score (method self) data →
  k_off self → threshold self = Some t → ¬ (t == 0)%Q →
  best self data = filter (λ x, pred self t x) (best_sorted self data)
  ∧ (∀ f, f ∈ (best self data).*2
          ↔ f ∈ attributes (domain data)
            ∧ isinstance f (feature_type (method self)) = true
            ∧ score_meets (decreasing self) t (score_of f))
  ∧ (∀ out, SelectBestFeatures_call self data = inr out →
            attributes (domain out)
            = (best self data).*2
              ++ filter (λ f, negb (isinstance f (feature_type (method self))))
                        (attributes (domain data))).
Proof.
  intros Hnan Hk Ht Hnz.
  assert (best self data = filter (λ x, pred self t x) (best_sorted self data))
    as Hbest.
  { rewrite (best_threshold_on t Ht Hnz), (best_k_off Hk).
    by apply threshold_cut_is_filter. }
  split; [done|]. split; [|intros out; apply output_attributes].
  intros f. rewrite Hbest, list_elem_of_fmap. split.
  - intros (x & -> & Hx). apply list_elem_of_filter in Hx as [Hp Hx].
    apply elem_of_best_sorted in Hx as (f & -> & Hf). simpl.
    apply list_elem_of_filter in Hf as [Hf Hin].
    split; [done|]. split; [by apply Is_true_true|].
    apply Is_true_true in Hp. by apply pred_meets in Hp.
  - intros (Hin & Hf & Hm). exists (score_of f, f). split; [done|].
    apply list_elem_of_filter. split.
    + apply Is_true_true, pred_meets. exact Hm.
    + apply elem_of_best_sorted. exists f. split; [done|].
      apply list_elem_of_filter. split; [by apply Is_true_true|done].
Qed.

(** X2.  When no scorable attribute has the score NaN, with [k] positive
    and a threshold other than zero, the selection is the first [k] pairs of
    the sorted list filtered by the threshold: the [k] best of the features
    that meet the threshold (all of them when they are fewer), so that both
    conditions hold for what is selected.  Whatever the scores, cutting by
    the threshold first and by [k] afterwards gives the same result. *)
Theorem k_best_of_those_meeting (n : Z) (t : Q) :
  k self = Some n → (0 < n)%Z → threshold self = Some t → ¬ (t == 0)%Q →
  best self data
  = take (Z.to_nat n) (takewhile (pred self t) (best_sorted self data))
  ∧ (no_nan_score (method self) data →
     best self data
     = take (Z.to_nat n)
            (filter (λ x, pred self t x) (best_sorted self data))
     ∧ length (best self data)
       = Z.to_nat n
           `min` length
                   (filter (λ f, pred self t (score_of f, f))
                      (filter
                         (λ f, isinstance f (feature_type (method self)))
                         (attributes (domain data))))).
Proof.
  intros Hk Hn Ht Hnz.
  assert (best self data
          = take (Z.to_nat n)
                 (takewhile (pred self t) (best_sorted self data)))
    as Hcut.
  { rewrite (best_threshold_on t Ht Hnz), (best_k_pos n Hk Hn).
    apply takewhile_take. }
  split; [done|]. intros Hnan.
  assert (best self data
          = take (Z.to_nat n)
                 (filter (λ x, pred self t x) (best_sorted self data)))
    as Hbest.
  { by rewrite Hcut, threshold_cut_is_filter. }
  split; [done|].
  rewrite Hbest, length_take. f_equal.
  trans (length (filter (λ x, pred self t x)
                        ((λ f, (score_of f, f)) <$> features self data))).
  - apply Permutation_length, filter_Permutation.
    rewrite <- zip_scores_features. apply best_sorted_perm.
  - rewrite <- (length_fmap snd). f_equal.
    exact (filter_fmap_pair score_of (λ x, pred self t x) _).
Qed.

(** X3.  With [k] off and [threshold] off nothing is dropped: the result
    lists every scorable attribute, in the order of the sorted list, and
    then the other attributes, and its attributes are those of the table in
    another order.  This is so for a selector built with the defaults of
    the constructor. *)
Theorem no_k_no_threshold_keeps_all (out : Table) :
  k_off self → threshold_off self →
  SelectBestFeatures_call self data = inr out →
  attributes (domain out) = (best_sorted self data).*2 ++ other self data
  ∧ attributes (domain out) ≡ₚ attributes (domain data)
  ∧ length (attributes (domain out)) = length (attributes (domain data)).
Proof.
  intros Hk Ht Hout.
  assert (attributes (domain out)
          = (best_sorted self data).*2 ++ other self data) as Hattrs.
  { rewrite (output_attributes self data out Hout).
    by rewrite (best_threshold_off Ht), (best_k_off Hk). }
  assert (attributes (domain out) ≡ₚ attributes (domain data)) as Hperm.
  { rewrite Hattrs, best_sorted_features. apply features_other_perm. }
  split; [done|]. split; [done|]. by rewrite Hperm.
Qed.

(** X4.  When no attribute is an instance of the feature class of the
    method, nothing is scored and the result has exactly the attributes of
    the table, in their order, whatever [k], [threshold] and [decreasing]
    are. *)
Theorem nothing_scorable_keeps_attributes (out : Table) :
  features self data = [] →
  SelectBestFeatures_call self data = inr out →
  best self data = []
  ∧ attributes (domain out) = attributes (domain data).
Proof.
  intros Hnone Hout.
  assert (best self data = []) as Hbest.
  { apply prefix_nil_inv. etrans; [apply best_prefix|].
    assert (best_sorted self data = []) as ->; [|done].
    apply Permutation_nil_r. rewrite best_sorted_perm.
    unfold scores. by rewrite Hnone. }
  split; [done|].
  rewrite (output_attributes self data out Hout), Hbest. simpl.
  by apply filter_empty_complement.
Qed.

(** X5.  A negative [k] is true and slices from the end: [best[:k]] leaves
    out the last [-k] pairs of the sorted list, so that
    [max 0 (scorable - (-k))] pairs pass the step (none when [-k] is at
    least the number of scorable attributes). *)
Theorem negative_k_drops_last (n : Z) :
  k self = Some n → (n < 0)%Z →
  best_k self data
  = take (length (features self data) - Z.to_nat (- n)) (best_sorted self data)
  ∧ length (best_k self data)
    = length (features self data) - Z.to_nat (- n)
  ∧ (length (features self data) ≤ Z.to_nat (- n) → best self data = []).
Proof.
  intros Hk Hn.
  assert (best_k self data
          = take (length (features self data) - Z.to_nat (- n))
                 (best_sorted self data)) as Hbk.
  { unfold best_k. rewrite Hk.
    assert (truthy_int n = true) as ->
      by (apply negb_true_iff, Z.eqb_neq; lia).
    unfold slice_to.
    assert ((0 <=? n)%Z = false) as -> by (apply Z.leb_gt; lia).
    by rewrite best_sorted_length. }
  split; [done|]. split.
  - rewrite Hbk, length_take, best_sorted_length. lia.
  - intros Hle. apply prefix_nil_inv. etrans; [apply best_prefix_k|].
    rewrite Hbk. by replace (_ - _) with 0 by lia.
Qed.

(** X8.  No attribute is duplicated: when the attributes of the table are
    pairwise distinct, so are those of the result of [SelectBestFeatures]
    and those of the result of [RemoveNaNColumns]. *)
Theorem distinct_attributes_stay_distinct :
  NoDup (attributes (domain data)) →
  (∀ out, SelectBestFeatures_call self data = inr out →
          NoDup (attributes (domain out)))
  ∧ NoDup (attributes (domain (RemoveNaNColumns_call data))).
Proof.
  intros Hnd. split.
  - intros out Hout. rewrite (output_attributes self data out Hout).
    eapply submseteq_NoDup; [|exact Hnd].
    rewrite <- (features_other_perm self data).
    apply submseteq_app; [apply best_features | done].
  - exact (sublist_NoDup _ _ Hnd (att_sublist data)).
Qed.
End more_select.

Section compare_select.
Context `{Kinds} (self self' : SelectBestFeatures) (data : Table).

Lemma same_best_sorted :
  method self = method self' → decreasing self = decreasing self' →
  best_sorted self data = best_sorted self' data.
Proof.
  intros Hm Hd. unfold best_sorted, scores, features. by rewrite Hm, Hd.
Qed.

(** X6.  A larger [k] only adds features at the end: for two selectors
    that differ in [k] alone, with [0 < k <= k'], the selection with [k] is
    a prefix of the selection with [k'], with or without a threshold. *)
Theorem larger_k_extends_selection (n n' : Z) :
  method self = method self' → decreasing self = decreasing self' →
  threshold self = threshold self' →
  k self = Some n → k self' = Some n' → (0 < n)%Z → (n <= n')%Z →
  best self data `prefix_of` best self' data.
Proof.
  intros Hm Hd Ht Hk Hk' Hn Hnn'.
  assert (best_k self data `prefix_of` best_k self' data) as Hbk.
  { rewrite (best_k_pos self data n Hk Hn).
    rewrite (best_k_pos self' data n' Hk') by lia.
    rewrite (same_best_sorted Hm Hd).
    replace (Z.to_nat n) with (Z.to_nat n `min` Z.to_nat n') by lia.
    rewrite <- take_take. apply prefix_take. }
  unfold best. rewrite <- Ht. destruct (threshold self) as [t|]; [|done].
  destruct (truthy_num t); [|done].
  assert (∀ x, pred self t x = pred self' t x) as Hpred
    by (intros x; unfold pred; by rewrite Hd).
  rewrite <- (takewhile_ext _ _ _ Hpred). by apply takewhile_prefix_mono.
Qed.

(** X7.  A stricter threshold only removes features at the end: for two
    selectors that differ in [threshold] alone, both thresholds other than
    zero and [t'] at least as strict as [t] (higher when [decreasing], lower
    otherwise), the selection with [t'] is a prefix of the selection with
    [t]. *)
Theorem stricter_threshold_shortens_selection (t t' : Q) :
  method self = method self' → decreasing self = decreasing self' →
  k self = k self' →
  threshold self = Some t → threshold self' = Some t' →
  ¬ (t == 0)%Q → ¬ (t' == 0)%Q →
  meets (decreasing self) t t' →
  best self' data `prefix_of` best self data.
Proof.
  intros Hm Hd Hk Ht Ht' Hnz Hnz' Hstrict.
  rewrite (best_threshold_on self data t Ht Hnz).
  rewrite (best_threshold_on self' data t' Ht' Hnz').
  assert (best_k self' data = best_k self data) as ->.
  { unfold best_k. by rewrite <- Hk, (same_best_sorted Hm Hd). }
  apply takewhile_weaken. intros x. unfold pred. rewrite <- Hd.
  unfold meets in Hstrict.
  destruct x.1 as [|s]; [by destruct (decreasing self)|]. simpl.
  destruct (decreasing self); rewrite !Qle_bool_iff; intros Hx;
    eapply Qle_trans; eassumption.
Qed.
End compare_select.

(** ** Reading the scores in the opposite direction *)

Section mirror_facts.

Lemma Qle_bool_opp (a b : Q) : Qle_bool (- a) (- b) = Qle_bool b a.
Proof.
  apply eq_true_iff_eq. rewrite !Qle_bool_iff. split.
  - intros Hle. apply Qopp_le_compat in Hle.
    by rewrite !Qopp_involutive in Hle.
  - apply Qopp_le_compat.
Qed.

Lemma truthy_num_opp (t : Q) : truthy_num (- t) = truthy_num t.
Proof.
  unfold truthy_num. f_equal. apply eq_true_iff_eq.
  rewrite !Qeq_bool_iff. split; intros Heq.
  - rewrite <- (Qopp_involutive t), Heq. reflexivity.
  - rewrite Heq. reflexivity.
Qed.

Lemma num_opp (v : float) : num (float_opp v) = (- num v)%Q.
Proof. by destruct v. Qed.

Context {B : Type}.

Local Abbreviation number := (λ z : float * B, num z.1).

Lemma precedes_opposite (r : bool) (x y : float * B) :
  precedes number (negb r) (opposite x) (opposite y) = precedes number r x y.
Proof.
  unfold precedes, opposite. simpl. rewrite !num_opp.
  destruct r; simpl; apply Qle_bool_opp.
Qed.

Lemma insert_sorted_opposite (r : bool) (x : float * B) (l : list (float * B)) :
  insert_sorted number (negb r) (opposite x) (opposite <$> l)
  = opposite <$> insert_sorted number r x l.
Proof.
  induction l as [|y l IH]; [done|]. rewrite fmap_cons. simpl.
  rewrite precedes_opposite. destruct (precedes number r x y); [done|].
  by rewrite fmap_cons, IH.
Qed.

Lemma stable_sort_opposite (r : bool) (l : list (float * B)) :
  stable_sort number (negb r) (opposite <$> l)
  = opposite <$> stable_sort number r l.
Proof.
  induction l as [|x l IH]; [done|]. rewrite fmap_cons. simpl.
  by rewrite IH, insert_sorted_opposite.
Qed.
End mirror_facts.

Section mirror_select.
Context `{ClassVar} (self : SelectBestFeatures) (data : Table).

Lemma no_nan_score_negated :
  no_nan_score (method self) data →
  no_nan_score (method (mirrored self)) data.
Proof.
  intros Hnan f Hin Hf. simpl. specialize (Hnan f Hin Hf).
  by destruct (score (method self) f data).
Qed.

Lemma best_sorted_mirrored :
  no_nan_score (method self) data →
  best_sorted (mirrored self) data = opposite <$> best_sorted self data.
Proof.
  intros Hnan.
  rewrite (best_sorted_stable_sort (mirrored self) data)
    by by apply no_nan_score_negated.
  rewrite (best_sorted_stable_sort self data) by done.
  rewrite <- stable_sort_opposite. f_equal.
  rewrite !zip_scores_features, <- list_fmap_compose. done.
Qed.

Lemma best_k_mirrored :
  no_nan_score (method self) data →
  best_k (mirrored self) data = opposite <$> best_k self data.
Proof.
  intros Hnan. unfold best_k. rewrite best_sorted_mirrored by done. simpl.
  destruct (k self) as [n|]; [|done].
  destruct (truthy_int n); [apply slice_to_fmap | done].
Qed.

Lemma best_mirrored :
  no_nan_score (method self) data →
  best (mirrored self) data = opposite <$> best self data.
Proof.
  intros Hnan. unfold best. rewrite best_k_mirrored by done. simpl.
  destruct (threshold self) as [t|]; [|done]. simpl.
  rewrite truthy_num_opp. destruct (truthy_num t); [|done].
  rewrite takewhile_fmap. f_equal. apply takewhile_ext.
  intros x. unfold pred, opposite. simpl.
  destruct x.1 as [|s]; [by destruct (decreasing self)|].
  destruct (decreasing self); simpl; apply Qle_bool_opp.
Qed.

(** X9.  When no scorable attribute has the score NaN, selecting by
    increasing scores is selecting by decreasing opposite scores: the
    selector with the opposite scores, the opposite threshold and the
    opposite order selects the same features in the same order and returns
    the same result, error included. *)
Theorem mirrored_selects_the_same :
  no_nan_score (method self) data →
  (best (mirrored self) data).*2 = (best self data).*2
  ∧ SelectBestFeatures_call (mirrored self) data
    = SelectBestFeatures_call self data.
Proof.
  intros Hnan.
  assert ((best (mirrored self) data).*2 = (best self data).*2) as Hbest.
  { rewrite best_mirrored, <- list_fmap_compose by done. done. }
  split; [done|]. unfold SelectBestFeatures_call, selected_domain.
  by rewrite Hbest.
Qed.
End mirror_select.

(** ** More on RemoveNaNColumns *)

Section more_remove.
Context `{Kinds} (data : Table).

Lemma filter_all_marked {A : Type} (l : list A) (n : nat) :
  filter (λ p : A * bool, negb p.2) (zip l (replicate n true)) = [].
Proof.
  revert n. induction l as [|a l IH]; intros [|n]; simpl; try done.
  rewrite filter_cons. simpl.
  destruct (decide (Is_true false)) as [[]|_]. apply IH.
Qed.

Lemma filter_all {A : Type} (P : A → Prop) `{!∀ a, Decision (P a)}
    (l : list A) :
  Forall P l → filter P l = l.
Proof.
  induction 1 as [|x l Hx _ IH]; [done|].
  by rewrite filter_cons_True, IH.
Qed.

Lemma positions_snd (l : list Var) : (zip (seq 0 (length l)) l).*2 = l.
Proof. apply snd_zip. by rewrite length_seq. Qed.

(** X10.  On a table without rows every column is vacuously all missing
    ([np.all] over no rows is true), so every attribute is removed. *)
Theorem no_rows_removes_every_attribute :
  rows (X data) = [] →
  nan_col data = replicate (ncols (X data)) true
  ∧ attributes (domain (RemoveNaNColumns_call data)) = [].
Proof.
  intros Hrows.
  assert (nan_col data = replicate (ncols (X data)) true) as Hmask.
  { unfold nan_col, np_isnan. by rewrite Hrows. }
  split; [done|]. simpl. unfold att. by rewrite Hmask, filter_all_marked.
Qed.

(** X11.  On a table whose array has one column per attribute, the
    attributes are left as they are exactly when every column holds a number
    in some row. *)
Theorem attributes_unchanged_iff_no_missing_column :
  well_formed data →
  attributes (domain (RemoveNaNColumns_call data)) = attributes (domain data)
  ↔ ∀ j, j < length (attributes (domain data)) →
         ∃ r q, r ∈ rows (X data) ∧ r !! j = Some (Num q).
Proof.
  intros Hwf. pose proof (nan_col_all_missing data Hwf) as Hmask.
  destruct Hwf as [Hshape Hcols].
  set (n := length (attributes (domain data))) in *.
  set (L := zip (seq 0 n) (attributes (domain data))).
  assert (attributes (domain (RemoveNaNColumns_call data))
          = (filter (λ p : nat * Var, ¬ all_missing data p.1) L).*2) as ->.
  { simpl. unfold att. rewrite Hmask.
    apply (filter_zip_mask (all_missing data)). }
  assert (∀ j, j < n →
            (¬ all_missing data j
             ↔ ∃ r q, r ∈ rows (X data) ∧ r !! j = Some (Num q))) as Hval.
  { intros j Hj. eapply column_has_value; [exact Hshape|lia]. }
  split.
  - intros Heq j Hj. apply Hval; [done|].
    destruct (lookup_lt_is_Some_2 (attributes (domain data)) j Hj) as [a Ha].
    assert ((j, a) ∈ L) as Hin.
    { apply list_elem_of_lookup. exists j. unfold L.
      rewrite lookup_zip_with, lookup_seq_lt, Ha by done. done. }
    intros Hmiss.
    pose proof (length_filter_lt (λ p : nat * Var, ¬ all_missing data p.1)
                  L (j, a) Hin) as Hlt.
    apply (f_equal length) in Heq. rewrite length_fmap in Heq.
    assert (length L = n) as HL.
    { unfold L. rewrite length_zip_with, length_seq. lia. }
    specialize (Hlt (λ Hkeep, Hkeep Hmiss)). fold n in Heq. lia.
  - intros Hall. rewrite filter_all; [apply positions_snd|].
    apply Forall_forall. intros [j a] Hin. simpl.
    apply elem_of_zip_l, elem_of_seq in Hin.
    apply Hval; [lia|]. apply Hall. lia.
Qed.
End more_remove.

Section large_k.
Context `{ClassVar} (self self' : SelectBestFeatures) (data : Table).

(** X12.  A [k] at least as large as the number of scorable attributes
    cuts nothing: the selector returns what the selector without [k],
    otherwise the same, returns. *)
Theorem large_k_is_no_k (n : Z) :
  method self = method self' → decreasing self = decreasing self' →
  threshold self = threshold self' →
  k self = Some n → k self' = None →
  (Z.of_nat (length (features self data)) <= n)%Z →
  best self data = best self' data
  ∧ SelectBestFeatures_call self data = SelectBestFeatures_call self' data.
Proof.
  intros Hm Hd Ht Hk Hk' Hn.
  assert (best_k self data = best_k self' data) as Hbk.
  { unfold best_k. rewrite Hk, Hk', <- (same_best_sorted self self' data Hm Hd).
    destruct (truthy_int n); [|done].
    rewrite slice_to_pos by lia. apply take_ge.
    rewrite best_sorted_length. lia. }
  assert (best self data = best self' data) as Hbest.
  { unfold best. rewrite <- Ht, Hbk. destruct (threshold self) as [t|]; [|done].
    destruct (truthy_num t); [|done]. apply takewhile_ext.
    intros x. unfold pred. by rewrite Hd. }
  split; [done|].
  unfold SelectBestFeatures_call, selected_domain, other, error_message.
  by rewrite Hbest, Hm.
Qed.
End large_k.

(** ** The further properties on the example tables *)

Lemma threshold_selects_all_meeting_witness :
  no_nan_score (method above_04) table
  ∧ k_off above_04 ∧ threshold above_04 = Some (4 # 10)%Q
  ∧ ¬ (4 # 10 == 0)%Q
  ∧ (∀ f, f ∈ (best above_04 table).*2
          ↔ f ∈ attributes (domain table)
            ∧ isinstance f (feature_type (method above_04)) = true
            ∧ score_meets true (4 # 10)%Q (score (method above_04) f table))
  ∧ (best above_04 table).*2 = [A; B].
Proof.
  assert (no_nan_score (method above_04) table) as Hnan
    by apply scorer_no_nan.
  assert (k_off above_04) as Hk by (by left).
  assert (¬ (4 # 10 == 0)%Q) as Hnz by (intros Heq; discriminate Heq).
  exact (conj Hnan (conj Hk (conj eq_refl (conj Hnz (conj
           (proj1 (proj2 (threshold_selects_all_meeting above_04 table
                            (4 # 10)%Q Hnan Hk eq_refl Hnz)))
           eq_refl))))).
Defined.

Lemma k_best_of_those_meeting_witness :
  k top2_above_06 = Some 2%Z ∧ (0 < 2)%Z
  ∧ threshold top2_above_06 = Some (6 # 10)%Q ∧ ¬ (6 # 10 == 0)%Q
  ∧ no_nan_score (method top2_above_06) table
  ∧ best top2_above_06 table
    = take 2 (filter (λ x, pred top2_above_06 (6 # 10)%Q x)
                     (best_sorted top2_above_06 table))
  ∧ (best top2_above_06 table).*2 = [A].
Proof.
  assert (0 < 2)%Z as Hpos by reflexivity.
  assert (¬ (6 # 10 == 0)%Q) as Hnz by (intros Heq; discriminate Heq).
  assert (no_nan_score (method top2_above_06) table) as Hnan
    by apply scorer_no_nan.
  exact (conj eq_refl (conj Hpos (conj eq_refl (conj Hnz (conj Hnan (conj
           (proj1 (proj2 (k_best_of_those_meeting top2_above_06 table 2%Z
                            (6 # 10)%Q eq_refl Hpos eq_refl Hnz) Hnan))
           eq_refl)))))).
Defined.

Lemma mirrored_selects_the_same_witness :
  no_nan_score (method (tied false)) table
  ∧ SelectBestFeatures_call (mirrored (tied false)) table
    = SelectBestFeatures_call (tied false) table.
Proof.
  assert (no_nan_score (method (tied false)) table) as Hnan
    by apply scorer_no_nan.
  exact (conj Hnan
           (proj2 (mirrored_selects_the_same (tied false) table Hnan))).
Defined.

Lemma no_k_no_threshold_keeps_all_witness :
  k_off (SelectBestFeatures_init (method top1))
  ∧ threshold_off (SelectBestFeatures_init (method top1))
  ∧ SelectBestFeatures_call (SelectBestFeatures_init (method top1)) table
    = inr (from_table
             (selected_domain (SelectBestFeatures_init (method top1)) table)
             table)
  ∧ attributes (selected_domain (SelectBestFeatures_init (method top1)) table)
    ≡ₚ attributes (domain table).
Proof.
  assert (k_off (SelectBestFeatures_init (method top1))) as Hk by (by left).
  assert (threshold_off (SelectBestFeatures_init (method top1))) as Ht
    by (by left).
  exact (conj Hk (conj Ht (conj eq_refl
           (proj1 (proj2 (no_k_no_threshold_keeps_all
                            (SelectBestFeatures_init (method top1)) table _
                            Hk Ht eq_refl)))))).
Defined.

Lemma nothing_scorable_keeps_attributes_witness :
  features discrete_top1 table_ab = []
  ∧ SelectBestFeatures_call discrete_top1 table_ab
    = inr (from_table (selected_domain discrete_top1 table_ab) table_ab)
  ∧ attributes (selected_domain discrete_top1 table_ab)
    = attributes (domain table_ab).
Proof.
  exact (conj eq_refl (conj eq_refl
           (proj2 (nothing_scorable_keeps_attributes discrete_top1 table_ab _
                     eq_refl eq_refl)))).
Defined.

Lemma negative_k_drops_last_witness :
  k all_but_last = Some (-1)%Z ∧ (-1 < 0)%Z
  ∧ length (best_k all_but_last table)
    = length (features all_but_last table) - Z.to_nat (- -1).
Proof.
  assert (-1 < 0)%Z as Hneg by reflexivity.
  exact (conj eq_refl (conj Hneg
           (proj1 (proj2 (negative_k_drops_last all_but_last table (-1)%Z
                            eq_refl Hneg))))).
Defined.

Lemma larger_k_extends_selection_witness :
  k top1 = Some 1%Z ∧ k top2 = Some 2%Z ∧ (0 < 1)%Z ∧ (1 <= 2)%Z
  ∧ best top1 table `prefix_of` best top2 table.
Proof.
  assert (0 < 1)%Z as Hpos by reflexivity.
  assert (1 <= 2)%Z as Hle by (intros Hgt; discriminate Hgt).
  exact (conj eq_refl (conj eq_refl (conj Hpos (conj Hle
           (larger_k_extends_selection top1 top2 table 1%Z 2%Z
              eq_refl eq_refl eq_refl eq_refl eq_refl Hpos Hle))))).
Defined.

Lemma stricter_threshold_shortens_selection_witness :
  threshold above_04 = Some (4 # 10)%Q ∧ threshold above_06 = Some (6 # 10)%Q
  ∧ meets (decreasing above_04) (4 # 10)%Q (6 # 10)%Q
  ∧ best above_06 table `prefix_of` best above_04 table.
Proof.
  assert (¬ (4 # 10 == 0)%Q) as Hnz by (intros Heq; discriminate Heq).
  assert (¬ (6 # 10 == 0)%Q) as Hnz' by (intros Heq; discriminate Heq).
  assert (meets (decreasing above_04) (4 # 10)%Q (6 # 10)%Q) as Hstrict
    by (intros Hgt; discriminate Hgt).
  exact (conj eq_refl (conj eq_refl (conj Hstrict
           (stricter_threshold_shortens_selection above_04 above_06 table
              (4 # 10)%Q (6 # 10)%Q
              eq_refl eq_refl eq_refl eq_refl eq_refl Hnz Hnz' Hstrict)))).
Defined.

Lemma distinct_attributes_stay_distinct_witness :
  NoDup (attributes (domain table))
  ∧ NoDup (attributes (domain (RemoveNaNColumns_call table))).
Proof.
  assert (NoDup (attributes (domain table))) as Hnd.
  { apply (bool_decide_unpack _). reflexivity. }
  exact (conj Hnd (proj2 (distinct_attributes_stay_distinct top1 table Hnd))).
Defined.

Lemma no_rows_removes_every_attribute_witness :
  rows (X table_no_rows) = []
  ∧ attributes (domain (RemoveNaNColumns_call table_no_rows)) = [].
Proof.
  exact (conj eq_refl
           (proj2 (no_rows_removes_every_attribute table_no_rows eq_refl))).
Defined.

Lemma attributes_unchanged_iff_no_missing_column_witness :
  well_formed table_ab
  ∧ (attributes (domain (RemoveNaNColumns_call table_ab))
     = attributes (domain table_ab)
     ↔ ∀ j, j < length (attributes (domain table_ab)) →
            ∃ r q, r ∈ rows (X table_ab) ∧ r !! j = Some (Num q)).
Proof.
  assert (well_formed table_ab) as Hwf.
  { split; [|reflexivity]. repeat constructor. }
  exact (conj Hwf (attributes_unchanged_iff_no_missing_column table_ab Hwf)).
Defined.

Lemma large_k_is_no_k_witness :
  k top2 = Some 2%Z
  ∧ k (SelectBestFeatures_init (method top2)) = None
  ∧ (Z.of_nat (length (features top2 table)) <= 2)%Z
  ∧ SelectBestFeatures_call top2 table
    = SelectBestFeatures_call (SelectBestFeatures_init (method top2)) table.
Proof.
  assert (Z.of_nat (length (features top2 table)) <= 2)%Z as Hle
    by (intros Hgt; discriminate Hgt).
  exact (conj eq_refl (conj eq_refl (conj Hle
           (proj2 (large_k_is_no_k top2 (SelectBestFeatures_init (method top2))
                     table 2%Z eq_refl eq_refl eq_refl eq_refl eq_refl
                     Hle))))).
Defined.
